(** * bp: fixed-layout binary records (src/bp.py)

    A shallow embedding of the [Type] / [Field] / [Struct] classes of
    [bp.py], together with the parts of the Python runtime they call:
    an in-memory seekable binary stream ([io.BytesIO]), the [struct]
    module's [pack] / [unpack] / [calcsize] for the format codes [b], [h],
    [i], and the [utf-8] text codec.

    [Field] objects are mutable and a [Struct] holds references to them,
    so the embedding has an object store: a heap from addresses to [Field]
    records.  Exceptions are values of [Exn]; an operation that raises
    returns the state it had reached when it raised. *)

From Stdlib Require Import ZArith Lia Strings.String Strings.Ascii Strings.Byte.
From stdpp Require Import base tactics option functions list.

Local Open Scope Z_scope.

(** ** Bytes *)

Abbreviation byte := Byte.byte.

Definition byte_val (b : byte) : Z := Z.of_N (Byte.to_N b).

Definition mk_byte (z : Z) : byte :=
  match Byte.of_N (Z.to_N (z mod 256)) with
  | Some b => b
  | None => Byte.x00
  end.

(** ** Python values and their runtime types *)

(** A [str] is a sequence of code points (0 .. 0x10FFFF, lone surrogates
    included, as in CPython). *)
Definition pystr := list Z.

Definition pystr_of (s : string) : pystr :=
  map (fun c => Z.of_N (N_of_ascii c)) (list_ascii_of_string s).

Inductive PyVal :=
| VNone
| VBool (b : bool)
| VInt (z : Z)
| VStr (s : pystr)
| VBytes (bs : list byte).

Inductive PyType := T_NoneType | T_bool | T_int | T_str | T_bytes.

(** [type(obj)] *)
Definition type_of (obj : PyVal) : PyType :=
  match obj with
  | VNone => T_NoneType
  | VBool _ => T_bool
  | VInt _ => T_int
  | VStr _ => T_str
  | VBytes _ => T_bytes
  end.

(** [==] on type objects is identity. *)
Definition PyType_eqb (a b : PyType) : bool :=
  match a, b with
  | T_NoneType, T_NoneType | T_bool, T_bool | T_int, T_int
  | T_str, T_str | T_bytes, T_bytes => true
  | _, _ => false
  end.

(** ** The classes of [bp.py] as data *)

(** The concrete subclasses of [Type]. *)
Inductive TypeClass := C_Int8 | C_Int16 | C_Int32 | C_String.

(** An instance of a [Type] subclass; [String] carries [self.length]. *)
Inductive Ty :=
| Int8
| Int16
| Int32
| String_ (length : Z).

Definition class_of (t : Ty) : TypeClass :=
  match t with
  | Int8 => C_Int8
  | Int16 => C_Int16
  | Int32 => C_Int32
  | String_ _ => C_String
  end.

(** Exceptions: the two of [bp.py], and those of the runtime that the
    modelled calls can raise. *)
Inductive Exn :=
| FieldNotFound (name : string)
| FieldValidationError (name : string) (ftype : TypeClass) (vtype : PyType)
| StructError
| TypeError
| AttributeError
| UnicodeEncodeError
| UnicodeDecodeError.

(** ** A state-and-exception monad

    [M S A] is a computation over a state [S] that returns an [A] or
    raises; the state reached is returned in both cases. *)

Definition M (S A : Type) : Type := S -> (Exn + A) * S.

Definition ret {S A} (a : A) : M S A := fun s => (inr a, s).
Definition raise {S A} (e : Exn) : M S A := fun s => (inl e, s).
Definition bind {S A B} (m : M S A) (k : A -> M S B) : M S B :=
  fun s =>
    match m s with
    | (inl e, s') => (inl e, s')
    | (inr a, s') => k a s'
    end.

(** Lift a pure, fallible result into a computation. *)
Definition lift {S A} (r : Exn + A) : M S A := fun s => (r, s).

Notation "'let*' x ':=' m 'in' k" := (bind m (fun x => k))
  (at level 10, x pattern, m at level 100, k at level 200).

(** ** The binary stream ([BinaryIO], as [io.BytesIO] behaves) *)

Record Stream := mkStream { buf : list byte; pos : nat }.

(** [stream.read(n)]: up to [n] bytes from the position, fewer at the end
    of the stream; everything that is left when [n] is negative. *)
Definition stream_read (n : Z) : M Stream (list byte) := fun st =>
  let avail := drop (pos st) (buf st) in
  let got := if n <? 0 then avail else take (Z.to_nat n) avail in
  (inr got, mkStream (buf st) (pos st + List.length got)%nat).

(** [stream.write(bs)]: overwrite at the position, extending the buffer
    (zero-filled when the position is past the end); returns the count.
    Writing no bytes changes nothing. *)
Definition stream_write (bs : list byte) : M Stream Z := fun st =>
  match bs with
  | [] => (inr 0, st)
  | _ =>
    (inr (Z.of_nat (List.length bs)),
     mkStream (take (pos st) (buf st)
                 ++ replicate (pos st - List.length (buf st))%nat Byte.x00
                 ++ bs
                 ++ drop (pos st + List.length bs)%nat (buf st))
              (pos st + List.length bs)%nat)
  end.

(** [stream.seek(n)] *)
Definition stream_seek (n : nat) (st : Stream) : Stream := mkStream (buf st) n.

(** Bytes between the position and the end of the stream. *)
Definition remaining (st : Stream) : list byte := drop (pos st) (buf st).

(** ** The [struct] module: signed integers of 1, 2 and 4 bytes *)

(** The byte-order prefix of a format string: ["<"] or [">"]. *)
Inductive Endian := LittleEndian | BigEndian.

(** The format codes [b], [h], [i]. *)
Inductive Code := Code_b | Code_h | Code_i.

(** [struct.calcsize(f"{endian}{code}")] (standard sizes) *)
Definition calcsize (e : Endian) (c : Code) : Z :=
  match c with Code_b => 1 | Code_h => 2 | Code_i => 4 end.

(** [n] little-endian bytes of [z]. *)
Fixpoint le_bytes (n : nat) (z : Z) : list byte :=
  match n with
  | O => []
  | S n' => mk_byte z :: le_bytes n' (z / 256)
  end.

(** The unsigned value of little-endian bytes. *)
Fixpoint le_value (bs : list byte) : Z :=
  match bs with
  | [] => 0
  | b :: bs' => byte_val b + 256 * le_value bs'
  end.

Definition order (e : Endian) (bs : list byte) : list byte :=
  match e with LittleEndian => bs | BigEndian => rev bs end.

(** [struct.pack]: the argument must be an integer ([bool] is one) within
    the signed range of the code; two's complement in the byte order. *)
Definition pack (e : Endian) (c : Code) (v : PyVal) : Exn + list byte :=
  let w := calcsize e c in
  let enc (z : Z) :=
    if (- 2 ^ (8 * w - 1) <=? z) && (z <? 2 ^ (8 * w - 1))
    then inr (order e (le_bytes (Z.to_nat w) z))
    else inl StructError in
  match v with
  | VInt z => enc z
  | VBool b => enc (if b then 1 else 0)
  | _ => inl StructError
  end.

(** [struct.unpack(...)[0]]: the buffer must have exactly the size of
    the format. *)
Definition unpack (e : Endian) (c : Code) (bs : list byte) : Exn + Z :=
  let w := calcsize e c in
  if Z.of_nat (List.length bs) =? w then
    let u := le_value (order e bs) in
    inr (if u <? 2 ^ (8 * w - 1) then u else u - 2 ^ (8 * w))
  else inl StructError.

(** ** Text codecs ([str.encode] / [bytes.decode], error handler [strict]) *)

(** The [encoding] argument. *)
Inductive Encoding := Enc_utf8 | Enc_latin1 | Enc_ascii.

(** UTF-8 of one code point; surrogates are not encodable. *)
Definition utf8_encode_cp (c : Z) : option (list byte) :=
  if c <? 0 then None
  else if c <? 0x80 then Some [mk_byte c]
  else if c <? 0x800 then
    Some [mk_byte (0xC0 + c / 64); mk_byte (0x80 + c mod 64)]
  else if c <? 0x10000 then
    if (0xD800 <=? c) && (c <=? 0xDFFF) then None
    else Some [mk_byte (0xE0 + c / 4096);
               mk_byte (0x80 + (c / 64) mod 64);
               mk_byte (0x80 + c mod 64)]
  else if c <? 0x110000 then
    Some [mk_byte (0xF0 + c / 262144);
          mk_byte (0x80 + (c / 4096) mod 64);
          mk_byte (0x80 + (c / 64) mod 64);
          mk_byte (0x80 + c mod 64)]
  else None.

(** The payload of a continuation byte [10xxxxxx]. *)
Definition cont (b : byte) : option Z :=
  let v := byte_val b in
  if (0x80 <=? v) && (v <? 0xC0) then Some (v - 0x80) else None.

(** Strict UTF-8 decoding: truncated sequences, stray continuation bytes,
    overlong forms, surrogates and values above 0x10FFFF are errors. *)
Fixpoint utf8_decode (bs : list byte) : option pystr :=
  match bs with
  | [] => Some []
  | b0 :: r0 =>
    let v0 := byte_val b0 in
    if v0 <? 0x80 then option_map (cons v0) (utf8_decode r0)
    else if v0 <? 0xC2 then None
    else if v0 <? 0xE0 then
      match r0 with
      | b1 :: r1 =>
        match cont b1 with
        | Some x1 =>
          option_map (cons ((v0 - 0xC0) * 64 + x1)) (utf8_decode r1)
        | None => None
        end
      | _ => None
      end
    else if v0 <? 0xF0 then
      match r0 with
      | b1 :: b2 :: r2 =>
        match cont b1, cont b2 with
        | Some x1, Some x2 =>
          let c := (v0 - 0xE0) * 4096 + x1 * 64 + x2 in
          if (c <? 0x800) || ((0xD800 <=? c) && (c <=? 0xDFFF)) then None
          else option_map (cons c) (utf8_decode r2)
        | _, _ => None
        end
      | _ => None
      end
    else if v0 <? 0xF5 then
      match r0 with
      | b1 :: b2 :: b3 :: r3 =>
        match cont b1, cont b2, cont b3 with
        | Some x1, Some x2, Some x3 =>
          let c := (v0 - 0xF0) * 262144 + x1 * 4096 + x2 * 64 + x3 in
          if (c <? 0x10000) || (0x10FFFF <? c) then None
          else option_map (cons c) (utf8_decode r3)
        | _, _, _ => None
        end
      | _ => None
      end
    else None
  end.

(** One byte per code point, for code points below [bound]. *)
Fixpoint narrow_encode (bound : Z) (s : pystr) : option (list byte) :=
  match s with
  | [] => Some []
  | c :: s' =>
    if (0 <=? c) && (c <? bound)
    then option_map (cons (mk_byte c)) (narrow_encode bound s')
    else None
  end.

Fixpoint narrow_decode (bound : Z) (bs : list byte) : option pystr :=
  match bs with
  | [] => Some []
  | b :: bs' =>
    if byte_val b <? bound
    then option_map (cons (byte_val b)) (narrow_decode bound bs')
    else None
  end.

Fixpoint utf8_encode (s : pystr) : option (list byte) :=
  match s with
  | [] => Some []
  | c :: s' =>
    match utf8_encode_cp c, utf8_encode s' with
    | Some a, Some b => Some (a ++ b)
    | _, _ => None
    end
  end.

(** [s.encode(encoding)] for a [str] [s] *)
Definition str_encode (enc : Encoding) (s : pystr) : Exn + list byte :=
  let r := match enc with
           | Enc_utf8 => utf8_encode s
           | Enc_latin1 => narrow_encode 256 s
           | Enc_ascii => narrow_encode 128 s
           end in
  match r with Some bs => inr bs | None => inl UnicodeEncodeError end.

(** [bs.decode(encoding)] *)
Definition bytes_decode (enc : Encoding) (bs : list byte) : Exn + pystr :=
  let r := match enc with
           | Enc_utf8 => utf8_decode bs
           | Enc_latin1 => narrow_decode 256 bs
           | Enc_ascii => narrow_decode 128 bs
           end in
  match r with Some s => inr s | None => inl UnicodeDecodeError end.

(** [obj.encode(encoding)] on an arbitrary object: only [str] has the
    method. *)
Definition encode_method (obj : PyVal) (enc : Encoding) : Exn + list byte :=
  match obj with
  | VStr s => str_encode enc s
  | _ => inl AttributeError
  end.

(** ** The [Type] subclasses *)

(** [Int8] *)
Definition Int8_verify (obj : PyVal) : bool := PyType_eqb (type_of obj) T_int.

Definition Int8_read (endian : Endian) : M Stream PyVal :=
  let* bs := stream_read (calcsize endian Code_b) in
  let* z := lift (unpack endian Code_b bs) in
  ret (VInt z).

Definition Int8_write (number : PyVal) (endian : Endian) : M Stream Z :=
  let* bs := lift (pack endian Code_b number) in
  stream_write bs.

(** [Int16] *)
Definition Int16_verify (obj : PyVal) : bool := PyType_eqb (type_of obj) T_int.

Definition Int16_read (endian : Endian) : M Stream PyVal :=
  let* bs := stream_read (calcsize endian Code_h) in
  let* z := lift (unpack endian Code_h bs) in
  ret (VInt z).

Definition Int16_write (number : PyVal) (endian : Endian) : M Stream Z :=
  let* bs := lift (pack endian Code_h number) in
  stream_write bs.

(** [Int32] *)
Definition Int32_verify (obj : PyVal) : bool := PyType_eqb (type_of obj) T_int.

Definition Int32_read (endian : Endian) : M Stream PyVal :=
  let* bs := stream_read (calcsize endian Code_i) in
  let* z := lift (unpack endian Code_i bs) in
  ret (VInt z).

Definition Int32_write (number : PyVal) (endian : Endian) : M Stream Z :=
  let* bs := lift (pack endian Code_i number) in
  stream_write bs.

(** [String] *)
Definition String_verify (obj : PyVal) : bool := PyType_eqb (type_of obj) T_str.

Definition String_read (size : Z) (encoding : Encoding) : M Stream PyVal :=
  let* bs := stream_read size in
  let* s := lift (bytes_decode encoding bs) in
  ret (VStr s).

Definition String_write (string : PyVal) (encoding : Encoding) : M Stream Z :=
  let* bs := lift (encode_method string encoding) in
  stream_write bs.

(** *** Method calls as [Struct] makes them

    [Struct] calls the three methods on [field.type] with the stream (and
    the value) only, so every optional parameter takes its default:
    [endian = "<"], [encoding = "utf-8"]. *)

(** [t.verify(obj)] *)
Definition Type_verify (t : Ty) (obj : PyVal) : bool :=
  match t with
  | Int8 => Int8_verify obj
  | Int16 => Int16_verify obj
  | Int32 => Int32_verify obj
  | String_ _ => String_verify obj
  end.

(** [t.read(stream)].  [String.read] is a static method whose second
    parameter [size] has no default, and [self.length] is not passed to
    it: the call raises [TypeError] before anything is read. *)
Definition Type_read (t : Ty) : M Stream PyVal :=
  match t with
  | Int8 => Int8_read LittleEndian
  | Int16 => Int16_read LittleEndian
  | Int32 => Int32_read LittleEndian
  | String_ _ => raise TypeError
  end.

(** [t.write(stream, obj)] *)
Definition Type_write (t : Ty) (obj : PyVal) : M Stream Z :=
  match t with
  | Int8 => Int8_write obj LittleEndian
  | Int16 => Int16_write obj LittleEndian
  | Int32 => Int32_write obj LittleEndian
  | String_ _ => String_write obj Enc_utf8
  end.

(** ** [Field] *)

Record Field := mkField { name : string; type : Ty; value : PyVal }.




(** [field.value = v] *)
Definition with_value (v : PyVal) (f : Field) : Field :=
  mkField (name f) (type f) v.

(** ** The object store and [Struct] *)

(** Addresses of [Field] objects. *)
Abbreviation loc := nat.

(** The store: the [Field] object at each address. *)
Abbreviation Heap := (loc -> Field).

(** [self.fields]: a tuple of references to [Field] objects. *)
Record Struct := mkStruct { fields : list loc }.

(** [for field in fs: body(field)] *)
Fixpoint for_each {S} (body : loc -> M S unit) (fs : list loc) : M S unit :=
  match fs with
  | [] => ret tt
  | field :: fs' => let* _ := body field in for_each body fs'
  end.

(** [field.value = field.type.read(in_stream)] *)
Definition read_field (field : loc) : M (Heap * Stream) unit :=
  fun '(h, st) =>
    match Type_read (type (h field)) st with
    | (inl e, st') => (inl e, (h, st'))
    | (inr v, st') => (inr tt, (<[field := with_value v (h field)]> h, st'))
    end.

(** [field.type.write(out_stream, field.value)] *)
Definition write_field (field : loc) : M (Heap * Stream) unit :=
  fun '(h, st) =>
    match Type_write (type (h field)) (value (h field)) st with
    | (inl e, st') => (inl e, (h, st'))
    | (inr _, st') => (inr tt, (h, st'))
    end.

(** [Struct.read(self, in_stream)] *)
Definition Struct_read (self : Struct) : M (Heap * Stream) unit :=
  for_each read_field (fields self).

(** [Struct.write(self, out_stream)]; the method has no [return]
    statement, so the call yields [None]. *)
Definition Struct_write (self : Struct) : M (Heap * Stream) unit :=
  for_each write_field (fields self).

(** The loop of [Struct.set]: it leaves the method at the first field
    whose name matches, by [return] or by [raise]. *)
Fixpoint set_loop (fs : list loc) (name0 : string) (v : PyVal) : M Heap unit :=
  fun h =>
    match fs with
    | [] => (inl (FieldNotFound name0), h)
    | field :: fs' =>
      if String.eqb (name (h field)) name0 then
        if Type_verify (type (h field)) v
        then (inr tt, <[field := with_value v (h field)]> h)
        else (inl (FieldValidationError name0 (class_of (type (h field)))
                                        (type_of v)), h)
      else set_loop fs' name0 v h
    end.

(** [Struct.set(self, name, value)] *)
Definition Struct_set (self : Struct) (name0 : string) (v : PyVal) : M Heap unit :=
  set_loop (fields self) name0 v.

Fixpoint get_loop (fs : list loc) (name0 : string) : M Heap PyVal :=
  fun h =>
    match fs with
    | [] => (inl (FieldNotFound name0), h)
    | field :: fs' =>
      if String.eqb (name (h field)) name0 then (inr (value (h field)), h)
      else get_loop fs' name0 h
    end.

(** [Struct.get(self, name)] *)
Definition Struct_get (self : Struct) (name0 : string) : M Heap PyVal :=
  get_loop (fields self) name0.

(** ** Vocabulary of the statements *)

(** No field among [pre] is called [n]. *)
Definition none_named (h : Heap) (n : string) (pre : list loc) : Prop :=
  ∀ b, b ∈ pre → name (h b) ≠ n.

(** [a] is the first field of [fs] called [n]: the one a linear scan
    stops at. *)
Definition first_named (h : Heap) (n : string) (fs : list loc) (a : loc) : Prop :=
  ∃ pre post, fs = pre ++ a :: post ∧ none_named h n pre ∧ name (h a) = n.

(** [rd] raises whenever fewer than [width] bytes remain. *)
Definition short_read_fails (width : Z) (rd : M Stream PyVal) : Prop :=
  ∀ st, Z.of_nat (List.length (remaining st)) < width →
        ∃ e st', rd st = (inl e, st').

(** [start = stream.tell(); w(stream); stream.seek(start); r(stream)] *)
Definition write_seek_read (w : M Stream Z) (r : M Stream PyVal) : M Stream PyVal :=
  fun st =>
    match w st with
    | (inl e, st') => (inl e, st')
    | (inr _, st') => r (stream_seek (pos st) st')
    end.

(** The common shape of [Int8.read], [Int16.read] and [Int32.read]. *)
Definition num_read (c : Code) (endian : Endian) : M Stream PyVal :=
  let* bs := stream_read (calcsize endian c) in
  let* z := lift (unpack endian c bs) in
  ret (VInt z).

(** The common shape of [Int8.write], [Int16.write] and [Int32.write]. *)
Definition num_write (c : Code) (number : PyVal) (endian : Endian) : M Stream Z :=
  let* bs := lift (pack endian c number) in
  stream_write bs.

(** The format code of an integer type. *)
Definition num_code (t : Ty) : option Code :=
  match t with
  | Int8 => Some Code_b
  | Int16 => Some Code_h
  | Int32 => Some Code_i
  | String_ _ => None
  end.

(** The signed range of a format code. *)
Definition in_range (c : Code) (z : Z) : Prop :=
  match c with
  | Code_b => -128 <= z <= 127
  | Code_h => -32768 <= z <= 32767
  | Code_i => -2147483648 <= z <= 2147483647
  end.

#[global] Instance in_range_dec c z : Decision (in_range c z).
Proof. destruct c; cbn; apply _. Defined.

(** The bytes [t.write(stream, v)] hands to [stream.write]. *)
Definition wire_bytes (t : Ty) (v : PyVal) : Exn + list byte :=
  match t with
  | Int8 => pack LittleEndian Code_b v
  | Int16 => pack LittleEndian Code_h v
  | Int32 => pack LittleEndian Code_i v
  | String_ _ => encode_method v Enc_utf8
  end.

(** [field.value = v] for each pair of a field and a value, in order. *)
Definition assign_all (h : Heap) (avs : list (loc * PyVal)) : Heap :=
  foldl (fun h' av => <[av.1 := with_value av.2 (h' av.1)]> h') h avs.

(** A stream that holds the bytes [c] and nothing else, at its start. *)
Definition alone (c : list byte) : Stream := mkStream c 0.

(** The end of that stream. *)
Definition at_end (c : list byte) : Stream := mkStream c (List.length c).

(** ** Example objects *)

(** Three [Field] objects: [Field("a", Int8)], [Field("b", Int16)] and,
    at every other address, [Field("age", Int32)]. *)
Definition heap_abc : Heap := fun a =>
  match a with
  | 0%nat => mkField "a" Int8 VNone
  | 1%nat => mkField "b" Int16 VNone
  | _ => mkField "age" Int32 VNone
  end.

Definition struct_abc : Struct := mkStruct [0; 1; 2]%nat.

(** [Field("A", Int8, 1)] and [Field("B", Int16, 515)], and the [Struct]
    that declares [A] before [B]. *)
Definition heap_AB : Heap := fun a =>
  match a with
  | 0%nat => mkField "A" Int8 (VInt 1)
  | _ => mkField "B" Int16 (VInt 515)
  end.

Definition struct_AB : Struct := mkStruct [0; 1]%nat.

(** [Field("s", String(5), "hello")] at address 0 and, at every other
    address, a [Field("s", String(5))] whose value is unset. *)
Definition heap_hello : Heap := fun a =>
  match a with
  | 0%nat => mkField "s" (String_ 5) (VStr (pystr_of "hello"))
  | _ => mkField "s" (String_ 5) VNone
  end.

(** Five bytes: one for an [Int8], two for an [Int16], and two more. *)
Definition five_bytes : Stream :=
  mkStream [Byte.x01; Byte.x03; Byte.x02; Byte.xff; Byte.xff] 0.

(** ** Further vocabulary *)

(** [start = stream.tell(); r(stream); stream.seek(start); w(value)],
    where [value] is what [r] returned. *)
Definition read_seek_write (r : M Stream PyVal) (w : PyVal -> M Stream Z)
  : M Stream Z :=
  fun st =>
    match r st with
    | (inl e, st') => (inl e, st')
    | (inr v, st') => w v (stream_seek (pos st) st')
    end.

(** The field at [a] holds an integer of the signed range of its type. *)
Definition holds_num (h : Heap) (a : loc) : Prop :=
  ∃ c z, num_code (type (h a)) = Some c ∧ value (h a) = VInt z ∧ in_range c z.

(** Two stores hold the same object at every address. *)
Definition same_store (h1 h2 : Heap) : Prop := ∀ a, h1 a = h2 a.

(** The number of bytes [Struct.read] takes for a field of type [t]. *)
Definition num_width (t : Ty) : nat :=
  match num_code t with
  | Some c => Z.to_nat (calcsize LittleEndian c)
  | None => 0
  end.

(** [Field("A", Int8, 1)] and [Field("B", Int16, 515)] at addresses 0 and
    1, and two more [Field] objects of the same types, unset. *)
Definition heap_ABab : Heap := fun a =>
  match a with
  | 0%nat => mkField "A" Int8 (VInt 1)
  | 1%nat => mkField "B" Int16 (VInt 515)
  | 2%nat => mkField "A" Int8 VNone
  | _ => mkField "B" Int16 VNone
  end.

(** [Field("n", Int8, 300)], a value outside the range of its type, and
    [Field("m", Int16, 7)]. *)
Definition heap_300 : Heap := fun a =>
  match a with
  | 0%nat => mkField "m" Int16 (VInt 7)
  | _ => mkField "n" Int8 (VInt 300)
  end.

(** * Properties *)

(** ** Name lookup: [Struct.get] and [Struct.set] *)

Section Lookup.
Context (h : Heap) (n : string).

Lemma set_loop_skip pre rest v :
  none_named h n pre →
  set_loop (pre ++ rest) n v h = set_loop rest n v h.
Proof.
  induction pre as [|b pre IH]; intros Hpre; [done|].
  cbn [app set_loop].
  destruct (String.eqb_spec (name (h b)) n) as [Heq|_].
  - exfalso. eapply Hpre; [left|done].
  - apply IH. intros c Hc. apply Hpre. by right.
Qed.

Lemma get_loop_skip pre rest :
  none_named h n pre →
  get_loop (pre ++ rest) n h = get_loop rest n h.
Proof.
  induction pre as [|b pre IH]; intros Hpre; [done|].
  cbn [app get_loop].
  destruct (String.eqb_spec (name (h b)) n) as [Heq|_].
  - exfalso. eapply Hpre; [left|done].
  - apply IH. intros c Hc. apply Hpre. by right.
Qed.

Lemma get_loop_hit a rest :
  name (h a) = n → get_loop (a :: rest) n h = (inr (value (h a)), h).
Proof. intros Ha. cbn [get_loop]. by rewrite Ha, String.eqb_refl. Qed.

Lemma set_loop_hit a rest v :
  name (h a) = n →
  set_loop (a :: rest) n v h =
    if Type_verify (type (h a)) v
    then (inr tt, <[a := with_value v (h a)]> h)
    else (inl (FieldValidationError n (class_of (type (h a))) (type_of v)), h).
Proof. intros Ha. cbn [set_loop]. by rewrite Ha, String.eqb_refl. Qed.
End Lookup.

(** An assignment to [value] keeps every object's name and type. *)
Lemma store_value_name_type (h : Heap) a v b :
  name ((<[a := with_value v (h a)]> h) b) = name (h b) ∧
  type ((<[a := with_value v (h a)]> h) b) = type (h b).
Proof.
  destruct (decide (a = b)) as [->|Hne].
  - by rewrite fn_lookup_insert.
  - by rewrite fn_lookup_insert_ne.
Qed.

Lemma none_named_store (h : Heap) n a v pre :
  none_named h n pre → none_named (<[a := with_value v (h a)]> h) n pre.
Proof.
  intros Hpre b Hb. destruct (store_value_name_type h a v b) as [-> _]. auto.
Qed.

(** Every run of the loop of [set] ends in one of three ways. *)
Lemma set_loop_cases fs n v h :
  (none_named h n fs ∧ set_loop fs n v h = (inl (FieldNotFound n), h))
  ∨ ∃ pre a post,
      fs = pre ++ a :: post ∧ none_named h n pre ∧ name (h a) = n ∧
      set_loop fs n v h =
        if Type_verify (type (h a)) v
        then (inr tt, <[a := with_value v (h a)]> h)
        else (inl (FieldValidationError n (class_of (type (h a))) (type_of v)), h).
Proof.
  induction fs as [|b fs IH].
  - left. split; [|done]. intros b Hb. by apply elem_of_nil in Hb.
  - destruct (String.eqb_spec (name (h b)) n) as [Heq|Hne].
    + right. exists [], b, fs. split_and!; [done| |done|].
      * intros c Hc. by apply elem_of_nil in Hc.
      * by apply set_loop_hit.
    + destruct IH as [[Hnone Hres]|(pre & a & post & -> & Hpre & Ha & Hres)].
      * left. split.
        -- intros c [->|Hc]%elem_of_cons; auto.
        -- cbn [set_loop]. by destruct (String.eqb_spec (name (h b)) n).
      * right. exists (b :: pre), a, post. split_and!; [done| |done|].
        -- intros c [->|Hc]%elem_of_cons; auto.
        -- cbn [set_loop app]. by destruct (String.eqb_spec (name (h b)) n).
Qed.

Lemma none_named_nil h n : none_named h n [].
Proof. intros b Hb. by apply elem_of_nil in Hb. Qed.

Lemma none_named_cons h n b pre :
  name (h b) ≠ n → none_named h n pre → none_named h n (b :: pre).
Proof. intros Hb Hpre c [->|Hc]%elem_of_cons; auto. Qed.

#[local] Hint Resolve none_named_nil none_named_cons : core.

(** The first field called [n], when there is one, is unique. *)
Lemma first_named_unique h n fs a a' :
  first_named h n fs a → first_named h n fs a' → a = a'.
Proof.
  intros (pre & post & -> & Hpre & Ha) (pre' & post' & Heq & Hpre' & Ha').
  revert pre' Heq Hpre'. induction pre as [|b pre IH]; intros pre' Heq Hpre'.
  - destruct pre' as [|b' pre']; simplify_eq/=; [done|].
    exfalso. eapply Hpre'; [left|done].
  - destruct pre' as [|b' pre']; simplify_eq/=.
    + exfalso. eapply Hpre; [left|done].
    + eapply IH; [|done|].
      * intros c Hc. apply Hpre. by right.
      * intros c Hc. apply Hpre'. by right.
Qed.

(** [set] stops at the first field called [n] and decides there. *)
Lemma Struct_set_at_first (self : Struct) (h : Heap) (n : string)
    (v : PyVal) (a : loc) :
  first_named h n (fields self) a →
  Struct_set self n v h =
    if Type_verify (type (h a)) v
    then (inr tt, <[a := with_value v (h a)]> h)
    else (inl (FieldValidationError n (class_of (type (h a))) (type_of v)), h).
Proof.
  intros (pre & post & Hfs & Hpre & Ha). unfold Struct_set. rewrite Hfs.
  rewrite set_loop_skip by done. by apply set_loop_hit.
Qed.

(** C3: when some field is called [name], [set(name, value)] decides by
    [verify] of the first such field's type.  If [verify] accepts, the
    value is assigned to that field, [set] returns, and a following
    [get(name)] returns the value.  If [verify] rejects, [set] raises
    [FieldValidationError] carrying the name, and nothing is assigned. *)
Theorem Struct_set_then_get (self : Struct) (h : Heap) (n : string)
    (v : PyVal) (a : loc) :
  first_named h n (fields self) a →
  (Type_verify (type (h a)) v = true →
     let h' := <[a := with_value v (h a)]> h in
     Struct_set self n v h = (inr tt, h') ∧
     Struct_get self n h' = (inr v, h'))
  ∧ (Type_verify (type (h a)) v = false →
     Struct_set self n v h =
       (inl (FieldValidationError n (class_of (type (h a))) (type_of v)), h)).
Proof.
  intros Hfirst. rewrite (Struct_set_at_first self h n v a Hfirst).
  split; intros Hv; rewrite Hv; [|done].
  cbn zeta. split; [done|].
  destruct Hfirst as (pre & post & Hfs & Hpre & Ha).
  unfold Struct_get. rewrite Hfs.
  rewrite get_loop_skip by by apply none_named_store.
  rewrite get_loop_hit.
  - by rewrite fn_lookup_insert.
  - by rewrite fn_lookup_insert.
Qed.

(** The example of the specification: an [Int32] field called ["age"]
    rejects a text value and accepts 42. *)
Lemma Struct_set_then_get_age :
  Struct_set struct_abc "age" (VStr (pystr_of "not-a-number")) heap_abc
    = (inl (FieldValidationError "age" C_Int32 T_str), heap_abc)
  ∧ ∃ h', Struct_set struct_abc "age" (VInt 42) heap_abc = (inr tt, h')
          ∧ Struct_get struct_abc "age" h' = (inr (VInt 42), h').
Proof.
  assert (Hfirst : first_named heap_abc "age" (fields struct_abc) 2%nat).
  { exists [0; 1]%nat, []. split_and!; [done| |done].
    apply none_named_cons; [discriminate|].
    apply none_named_cons; [discriminate|]. apply none_named_nil. }
  split.
  - exact (proj2 (Struct_set_then_get struct_abc heap_abc "age"
                    (VStr (pystr_of "not-a-number")) 2%nat Hfirst) eq_refl).
  - eexists. exact (proj1 (Struct_set_then_get struct_abc heap_abc "age"
                             (VInt 42) 2%nat Hfirst) eq_refl).
Defined.

(** C4: when no field is called [name], [get(name)] and [set(name, value)]
    both raise [FieldNotFound]; when some field is, [get(name)] returns the
    value of the first one. *)
Theorem Struct_get_set_FieldNotFound (self : Struct) (h : Heap) (n : string) :
  (none_named h n (fields self) →
     Struct_get self n h = (inl (FieldNotFound n), h) ∧
     ∀ v, Struct_set self n v h = (inl (FieldNotFound n), h))
  ∧ (∀ a, first_named h n (fields self) a →
          Struct_get self n h = (inr (value (h a)), h)).
Proof.
  unfold Struct_get, Struct_set. split.
  - intros Hnone. split; [|intros v].
    + rewrite <- (app_nil_r (fields self)). by rewrite get_loop_skip.
    + rewrite <- (app_nil_r (fields self)). by rewrite set_loop_skip.
  - intros a (pre & post & -> & Hpre & Ha).
    rewrite get_loop_skip by done. by apply get_loop_hit.
Qed.

Lemma Struct_get_set_FieldNotFound_missing :
  Struct_get struct_abc "missing" heap_abc = (inl (FieldNotFound "missing"), heap_abc)
  ∧ Struct_set struct_abc "missing" (VInt 1) heap_abc
      = (inl (FieldNotFound "missing"), heap_abc)
  ∧ Struct_get struct_abc "b" heap_abc = (inr VNone, heap_abc).
Proof.
  pose proof (Struct_get_set_FieldNotFound struct_abc heap_abc "missing") as [H1 _].
  pose proof (Struct_get_set_FieldNotFound struct_abc heap_abc "b") as [_ H2].
  destruct H1 as [Hg Hs].
  { repeat (apply none_named_cons; [discriminate|]). apply none_named_nil. }
  split_and!; [exact Hg|exact (Hs (VInt 1))|].
  apply (H2 1%nat). exists [0%nat], [2%nat]. split_and!; [done| |done].
  apply none_named_cons; [discriminate|]. apply none_named_nil.
Defined.

(** ** The frame of [Struct.set] *)

(** C9: a [set] that returns has changed one object only, the first
    field called [name], and of that object only the value; every other
    object is as it was, and every object keeps its name and type.  A
    [set] that raises leaves the store as it was. *)
Theorem Struct_set_frame (self : Struct) (h h' : Heap) (n : string)
    (v : PyVal) (r : Exn + unit) :
  Struct_set self n v h = (r, h') →
  (r = inr tt →
     ∃ a, first_named h n (fields self) a ∧
          value (h' a) = v ∧
          (∀ b, b ≠ a → h' b = h b) ∧
          (∀ b, name (h' b) = name (h b) ∧ type (h' b) = type (h b)))
  ∧ (∀ e, r = inl e → h' = h).
Proof.
  unfold Struct_set. intros Hset.
  destruct (set_loop_cases (fields self) n v h)
    as [[_ Hres]|(pre & a & post & Hfs & Hpre & Ha & Hres)];
    rewrite Hres in Hset.
  - simplify_eq. split; [discriminate|done].
  - destruct (Type_verify (type (h a)) v); simplify_eq.
    + split; [intros _|discriminate].
      exists a. split_and!.
      * by exists pre, post.
      * by rewrite fn_lookup_insert.
      * intros b Hb. by rewrite fn_lookup_insert_ne.
      * intros b. apply store_value_name_type.
    + split; [discriminate|done].
Qed.

Lemma Struct_set_frame_age :
  let h' := snd (Struct_set struct_abc "age" (VInt 42) heap_abc) in
  (∃ a, first_named heap_abc "age" (fields struct_abc) a ∧
        value (h' a) = VInt 42 ∧
        (∀ b, b ≠ a → h' b = heap_abc b) ∧
        (∀ b, name (h' b) = name (heap_abc b) ∧ type (h' b) = type (heap_abc b)))
  ∧ snd (Struct_set struct_abc "age" VNone heap_abc) = heap_abc.
Proof.
  split.
  - exact (proj1 (Struct_set_frame struct_abc heap_abc _ "age" (VInt 42)
                    (inr tt) eq_refl) eq_refl).
  - exact (proj2 (Struct_set_frame struct_abc heap_abc _ "age" VNone
                    _ eq_refl) _ eq_refl).
Defined.

(** ** [verify] of the integer types *)

(** C6: [verify] of [Int8], [Int16] and [Int32] accepts every [int],
    whatever its magnitude, accepts nothing else, and so rejects every
    [str]. *)
Theorem Int_verify_int_only :
  (∀ z, Int8_verify (VInt z) = true ∧ Int16_verify (VInt z) = true ∧
        Int32_verify (VInt z) = true)
  ∧ (∀ obj, (Int8_verify obj = true ↔ ∃ z, obj = VInt z) ∧
            (Int16_verify obj = true ↔ ∃ z, obj = VInt z) ∧
            (Int32_verify obj = true ↔ ∃ z, obj = VInt z))
  ∧ (∀ s, Int8_verify (VStr s) = false ∧ Int16_verify (VStr s) = false ∧
          Int32_verify (VStr s) = false).
Proof.
  split_and!; [done| |done].
  intros obj. unfold Int8_verify, Int16_verify, Int32_verify.
  assert (PyType_eqb (type_of obj) T_int = true ↔ ∃ z, obj = VInt z) as Hiff.
  { split.
    - destruct obj; try discriminate. eauto.
    - by intros [z ->]. }
  done.
Qed.

(** C10: [verify] of the integer types compares [type(obj)] with [int],
    and the type of a boolean is [bool]: [set] of a boolean on a field of
    type [Int8], [Int16] or [Int32] raises [FieldValidationError] and
    assigns nothing. *)
Theorem Struct_set_bool_rejected (self : Struct) (h : Heap) (n : string)
    (a : loc) (b : bool) :
  first_named h n (fields self) a →
  type (h a) = Int8 ∨ type (h a) = Int16 ∨ type (h a) = Int32 →
  Type_verify (type (h a)) (VBool b) = false ∧
  Struct_set self n (VBool b) h =
    (inl (FieldValidationError n (class_of (type (h a))) T_bool), h).
Proof.
  intros Hfirst Hty.
  assert (Type_verify (type (h a)) (VBool b) = false) as Hv
    by (by destruct Hty as [->|[->| ->]]).
  split; [done|].
  by rewrite (Struct_set_at_first self h n (VBool b) a Hfirst), Hv.
Qed.

Lemma Struct_set_bool_rejected_age :
  Type_verify Int32 (VBool true) = false ∧
  Struct_set struct_abc "age" (VBool true) heap_abc
    = (inl (FieldValidationError "age" C_Int32 T_bool), heap_abc).
Proof.
  apply (Struct_set_bool_rejected struct_abc heap_abc "age" 2%nat true).
  - exists [0; 1]%nat, []. split_and!; [done| |done].
    repeat (apply none_named_cons; [discriminate|]). apply none_named_nil.
  - right. right. reflexivity.
Defined.

(** ** Bytes and the byte stream *)

Lemma byte_val_range b : 0 <= byte_val b < 256.
Proof.
  unfold byte_val. pose proof (Byte.to_N_bounded b). lia.
Qed.

Lemma byte_val_mk_byte z : byte_val (mk_byte z) = z mod 256.
Proof.
  unfold byte_val, mk_byte.
  pose proof (Z.mod_pos_bound z 256 eq_refl) as Hm.
  destruct (Byte.of_N (Z.to_N (z mod 256))) as [b|] eqn:Hb.
  - apply Byte.to_of_N in Hb. rewrite Hb. lia.
  - apply Byte.of_N_None_iff in Hb. lia.
Qed.

Lemma mk_byte_byte_val b : mk_byte (byte_val b) = b.
Proof.
  unfold mk_byte. pose proof (byte_val_range b).
  rewrite Z.mod_small by done. unfold byte_val.
  by rewrite N2Z.id, Byte.of_to_N.
Qed.

Lemma length_le_bytes n z : List.length (le_bytes n z) = n.
Proof. revert z. induction n as [|n IH]; intros z; cbn; [done|]. by rewrite IH. Qed.

Lemma le_value_le_bytes n z : le_value (le_bytes n z) = z mod 256 ^ Z.of_nat n.
Proof.
  revert z. induction n as [|n IH]; intros z.
  - cbn. by rewrite Z.mod_1_r.
  - cbn [le_bytes le_value]. rewrite byte_val_mk_byte, IH.
    rewrite Nat2Z.inj_succ, Z.pow_succ_r by lia.
    rewrite Z.rem_mul_r by lia. done.
Qed.

Lemma order_involutive e bs : order e (order e bs) = bs.
Proof. destruct e; cbn; [done|]. apply rev_involutive. Qed.

Lemma length_order e bs : List.length (order e bs) = List.length bs.
Proof. destruct e; cbn; [done|]. apply length_rev. Qed.

(** The range test of [pack], in closed form. *)
Lemma pack_guard e c z :
  (- 2 ^ (8 * calcsize e c - 1) <=? z) && (z <? 2 ^ (8 * calcsize e c - 1))
  = match c with
    | Code_b => bool_decide (-128 <= z <= 127)
    | Code_h => bool_decide (-32768 <= z <= 32767)
    | Code_i => bool_decide (-2147483648 <= z <= 2147483647)
    end.
Proof.
  destruct c; cbn [calcsize].
  - change (2 ^ _) with 128. case_bool_decide; lia.
  - change (2 ^ _) with 32768. case_bool_decide; lia.
  - change (2 ^ _) with 2147483648. case_bool_decide; lia.
Qed.

(** [pack] succeeds exactly on the integers of the signed range, and
    yields [calcsize] bytes. *)
Lemma pack_in_range e c z :
  in_range c z →
  pack e c (VInt z) = inr (order e (le_bytes (Z.to_nat (calcsize e c)) z)).
Proof.
  intros Hr. unfold pack.
  rewrite pack_guard.
  destruct c; cbn in Hr |- *; by rewrite bool_decide_true by lia.
Qed.

Lemma pack_out_of_range e c z :
  ¬ in_range c z → pack e c (VInt z) = inl StructError.
Proof.
  intros Hr. unfold pack.
  rewrite pack_guard.
  destruct c; cbn in Hr |- *; by rewrite bool_decide_false by lia.
Qed.

Lemma pack_length e c v bs :
  pack e c v = inr bs → Z.of_nat (List.length bs) = calcsize e c.
Proof.
  unfold pack. intros Hp.
  assert (∀ z, (if (- 2 ^ (8 * calcsize e c - 1) <=? z)
                     && (z <? 2 ^ (8 * calcsize e c - 1))
                then inr (order e (le_bytes (Z.to_nat (calcsize e c)) z))
                else inl StructError) = inr bs →
               Z.of_nat (List.length bs) = calcsize e c) as Henc.
  { intros z Hz. destruct (_ && _); simplify_eq.
    rewrite length_order, length_le_bytes. by destruct c. }
  destruct v; try discriminate; eauto.
Qed.

(** [unpack] inverts [pack]. *)
Lemma unpack_pack e c z bs :
  pack e c (VInt z) = inr bs → unpack e c bs = inr z.
Proof.
  intros Hp. pose proof (pack_length _ _ _ _ Hp) as Hlen.
  unfold unpack. rewrite Hlen, Z.eqb_refl.
  destruct (decide (in_range c z)) as [Hr|Hr].
  2:{ rewrite pack_out_of_range in Hp by done. discriminate. }
  rewrite pack_in_range in Hp by done. simplify_eq.
  rewrite order_involutive, le_value_le_bytes. f_equal.
  destruct c; cbn in Hr |- *.
  - change (256 ^ _) with 256. change (2 ^ (8 * 1 - 1)) with 128.
    change (2 ^ (8 * 1)) with 256.
    destruct (Z.ltb_spec (z mod 256) 128);
      Z.to_euclidean_division_equations; lia.
  - change (256 ^ _) with 65536. change (2 ^ (8 * 2 - 1)) with 32768.
    change (2 ^ (8 * 2)) with 65536.
    destruct (Z.ltb_spec (z mod 65536) 32768);
      Z.to_euclidean_division_equations; lia.
  - change (256 ^ _) with 4294967296. change (2 ^ (8 * 4 - 1)) with 2147483648.
    change (2 ^ (8 * 4)) with 4294967296.
    destruct (Z.ltb_spec (z mod 4294967296) 2147483648);
      Z.to_euclidean_division_equations; lia.
Qed.

(** What [unpack] returns lies in the signed range. *)
Lemma unpack_in_range e c bs z : unpack e c bs = inr z → in_range c z.
Proof.
  unfold unpack. destruct (Z.eqb_spec (Z.of_nat (List.length bs)) (calcsize e c))
    as [Hlen|]; [|discriminate].
  intros [= <-].
  assert (∀ l, 0 <= le_value l < 256 ^ Z.of_nat (List.length l)) as Hb.
  { induction l as [|b l IH]; [cbn; lia|].
    cbn [le_value List.length]. rewrite Nat2Z.inj_succ, Z.pow_succ_r by lia.
    pose proof (byte_val_range b). lia. }
  specialize (Hb (order e bs)). rewrite length_order, Hlen in Hb.
  destruct c; cbn in Hb |- *.
  - change (2 ^ (8 * 1 - 1)) with 128. change (2 ^ (8 * 1)) with 256.
    change (256 ^ _) with 256 in Hb.
    destruct (Z.ltb_spec (le_value (order e bs)) 128); lia.
  - change (2 ^ (8 * 2 - 1)) with 32768. change (2 ^ (8 * 2)) with 65536.
    change (256 ^ _) with 65536 in Hb.
    destruct (Z.ltb_spec (le_value (order e bs)) 32768); lia.
  - change (2 ^ (8 * 4 - 1)) with 2147483648. change (2 ^ (8 * 4)) with 4294967296.
    change (256 ^ _) with 4294967296 in Hb.
    destruct (Z.ltb_spec (le_value (order e bs)) 2147483648); lia.
Qed.

Lemma stream_seek_pos st : stream_seek (pos st) st = st.
Proof. by destruct st. Qed.

Lemma stream_write_nil st : stream_write [] st = (inr 0, st).
Proof. done. Qed.

(** The bytes [stream.write] leaves from the old position on. *)
Lemma stream_write_remaining bs st :
  bs ≠ [] →
  remaining (stream_seek (pos st) (snd (stream_write bs st)))
  = bs ++ drop (pos st + List.length bs) (buf st).
Proof.
  intros Hbs. destruct bs as [|b bs]; [done|].
  unfold remaining. cbn [stream_write snd stream_seek buf pos].
  rewrite (app_assoc (take _ _)). apply drop_app_length'.
  rewrite length_app, length_take, length_replicate. lia.
Qed.

(** Reading back what was just written. *)
Lemma stream_write_read_back bs st :
  stream_read (Z.of_nat (List.length bs))
              (stream_seek (pos st) (snd (stream_write bs st)))
  = (inr bs, snd (stream_write bs st)).
Proof.
  destruct bs as [|b bs].
  - rewrite stream_write_nil. cbn [snd]. rewrite stream_seek_pos.
    destruct st as [bf p]. unfold stream_read. cbn. by rewrite Nat.add_0_r.
  - pose proof (stream_write_remaining (b :: bs) st) as Hrem.
    unfold remaining in Hrem. unfold stream_read. rewrite Hrem by done.
    destruct (Z.ltb_spec (Z.of_nat (List.length (b :: bs))) 0) as [?|_]; [lia|].
    rewrite Nat2Z.id, take_app_length. done.
Qed.

(** A read returns the requested count, or what is left when that is
    less. *)
Lemma stream_read_length n st :
  0 <= n →
  ∃ got, stream_read n st = (inr got, mkStream (buf st) (pos st + List.length got))
         ∧ got = take (Z.to_nat n) (remaining st)
         ∧ List.length got = Nat.min (Z.to_nat n) (List.length (remaining st)).
Proof.
  intros Hn. eexists. unfold stream_read, remaining.
  destruct (Z.ltb_spec n 0) as [?|_]; [lia|].
  split_and!; [done..|]. apply length_take.
Qed.

(** ** Integers: round trip and short reads *)

Lemma Int8_read_num e : Int8_read e = num_read Code_b e.
Proof. done. Qed.
Lemma Int16_read_num e : Int16_read e = num_read Code_h e.
Proof. done. Qed.
Lemma Int32_read_num e : Int32_read e = num_read Code_i e.
Proof. done. Qed.
Lemma Int8_write_num v e : Int8_write v e = num_write Code_b v e.
Proof. done. Qed.
Lemma Int16_write_num v e : Int16_write v e = num_write Code_h v e.
Proof. done. Qed.
Lemma Int32_write_num v e : Int32_write v e = num_write Code_i v e.
Proof. done. Qed.

(** Writing an integer of the signed range writes [calcsize] bytes. *)
Lemma num_write_in_range c e z st :
  in_range c z →
  num_write c (VInt z) e st
  = (inr (calcsize e c),
     snd (stream_write (order e (le_bytes (Z.to_nat (calcsize e c)) z)) st)).
Proof.
  intros Hr. unfold num_write, bind, lift. rewrite pack_in_range by done.
  pose proof (pack_length e c (VInt z) _ (pack_in_range e c z Hr)) as Hlen.
  destruct (order e _) as [|b bs] eqn:Hbs.
  - destruct c; cbn in Hlen; lia.
  - cbn [stream_write snd]. by rewrite Hlen.
Qed.

(** Reading from exactly the bytes [pack] produced. *)
Lemma num_read_packed c e z bs st st' :
  pack e c (VInt z) = inr bs →
  stream_read (calcsize e c) st = (inr bs, st') →
  num_read c e st = (inr (VInt z), st').
Proof.
  intros Hp Hrd. unfold num_read, bind, lift, ret. rewrite Hrd.
  by rewrite (unpack_pack _ _ _ _ Hp).
Qed.

(** Every integer of the signed range survives [write], [seek] back,
    [read], in either byte order and from any stream state. *)
Lemma num_roundtrip c e z st :
  in_range c z →
  write_seek_read (num_write c (VInt z) e) (num_read c e) st
  = (inr (VInt z), snd (num_write c (VInt z) e st)).
Proof.
  intros Hr. unfold write_seek_read. rewrite num_write_in_range by done.
  cbn [snd]. eapply num_read_packed; [by apply pack_in_range|].
  pose proof (pack_length e c (VInt z) _ (pack_in_range e c z Hr)) as Hlen.
  remember (order e (le_bytes (Z.to_nat (calcsize e c)) z)) as bs.
  rewrite <- Hlen. apply stream_write_read_back.
Qed.

(** Outside the signed range [write] raises and writes nothing. *)
Lemma num_write_out_of_range c e z st :
  ¬ in_range c z → num_write c (VInt z) e st = (inl StructError, st).
Proof.
  intros Hr. unfold num_write, bind, lift. by rewrite pack_out_of_range.
Qed.

(** C7: the least and the greatest value of each signed width come back
    from [write] followed by [read], in either byte order; the encoding is
    two's complement on 1, 2 and 4 bytes. *)
Theorem Int_boundary_roundtrip (e : Endian) (st : Stream) :
  (fst (write_seek_read (Int8_write (VInt (-128)) e) (Int8_read e) st)
     = inr (VInt (-128)) ∧
   fst (write_seek_read (Int8_write (VInt 127) e) (Int8_read e) st)
     = inr (VInt 127) ∧
   fst (write_seek_read (Int16_write (VInt (-32768)) e) (Int16_read e) st)
     = inr (VInt (-32768)) ∧
   fst (write_seek_read (Int16_write (VInt 32767) e) (Int16_read e) st)
     = inr (VInt 32767) ∧
   fst (write_seek_read (Int32_write (VInt (-2147483648)) e) (Int32_read e) st)
     = inr (VInt (-2147483648)) ∧
   fst (write_seek_read (Int32_write (VInt 2147483647) e) (Int32_read e) st)
     = inr (VInt 2147483647))
  ∧ (pack LittleEndian Code_b (VInt (-128)) = inr [Byte.x80%byte] ∧
     pack LittleEndian Code_b (VInt 127) = inr [Byte.x7f%byte] ∧
     pack LittleEndian Code_h (VInt (-32768)) = inr [Byte.x00; Byte.x80] ∧
     pack BigEndian Code_h (VInt 32767) = inr [Byte.x7f; Byte.xff] ∧
     pack LittleEndian Code_i (VInt (-2147483648))
       = inr [Byte.x00; Byte.x00; Byte.x00; Byte.x80] ∧
     pack BigEndian Code_i (VInt 2147483647)
       = inr [Byte.x7f; Byte.xff; Byte.xff; Byte.xff]).
Proof.
  split; [|by vm_compute].
  assert (∀ c z, in_range c z →
            fst (write_seek_read (num_write c (VInt z) e) (num_read c e) st)
            = inr (VInt z)) as Hrt.
  { intros c z Hr. by rewrite num_roundtrip. }
  split_and!.
  - apply (Hrt Code_b). cbn. lia.
  - apply (Hrt Code_b). cbn. lia.
  - apply (Hrt Code_h). cbn. lia.
  - apply (Hrt Code_h). cbn. lia.
  - apply (Hrt Code_i). cbn. lia.
  - apply (Hrt Code_i). cbn. lia.
Qed.

(** With fewer bytes left than the format needs, [unpack] gets a short
    buffer and raises; the read has consumed what was left. *)
Lemma num_read_short c e st :
  Z.of_nat (List.length (remaining st)) < calcsize e c →
  num_read c e st
  = (inl StructError,
     mkStream (buf st) (pos st + List.length (remaining st))).
Proof.
  intros Hshort.
  destruct (stream_read_length (calcsize e c) st) as (got & Hrd & Hgot & Hlen);
    [by destruct c|].
  unfold num_read, bind, lift. rewrite Hrd.
  assert (List.length got = List.length (remaining st)) as Hall by lia.
  unfold unpack.
  destruct (Z.eqb_spec (Z.of_nat (List.length got)) (calcsize e c)); [lia|].
  by rewrite Hall.
Qed.

(** [String.read] decodes whatever [stream.read(size)] returned: when
    fewer than [size] bytes are left, that is all of them. *)
Lemma String_read_short size enc st :
  0 <= size →
  Z.of_nat (List.length (remaining st)) <= size →
  String_read size enc st
  = (match bytes_decode enc (remaining st) with
     | inl e => inl e
     | inr s => inr (VStr s)
     end,
     mkStream (buf st) (pos st + List.length (remaining st))).
Proof.
  intros Hsize Hshort.
  destruct (stream_read_length size st) as (got & Hrd & Hgot & Hlen); [done|].
  unfold String_read, bind, lift, ret. rewrite Hrd.
  rewrite take_ge in Hgot by lia. subst got.
  by destruct (bytes_decode enc (remaining st)).
Qed.

(** C2, as the code has it: [Int8.read], [Int16.read] and [Int32.read]
    raise [struct.error] when fewer bytes are left than their width and
    return no value.  [String.read] has no such check: with fewer than
    [size] bytes left it decodes the bytes that are left, and returns the
    shorter text when they are valid in the encoding. *)
Theorem short_read_by_type (e : Endian) (st : Stream) :
  (Z.of_nat (List.length (remaining st)) < 1 →
     ∃ st', Int8_read e st = (inl StructError, st'))
  ∧ (Z.of_nat (List.length (remaining st)) < 2 →
     ∃ st', Int16_read e st = (inl StructError, st'))
  ∧ (Z.of_nat (List.length (remaining st)) < 4 →
     ∃ st', Int32_read e st = (inl StructError, st'))
  ∧ (∀ size enc,
       0 <= size → Z.of_nat (List.length (remaining st)) < size →
       ∃ st', String_read size enc st
              = (match bytes_decode enc (remaining st) with
                 | inl ex => inl ex
                 | inr s => inr (VStr s)
                 end, st')).
Proof.
  split_and!.
  - intros Hs. eexists. by apply (num_read_short Code_b).
  - intros Hs. eexists. by apply (num_read_short Code_h).
  - intros Hs. eexists. by apply (num_read_short Code_i).
  - intros size enc Hsize Hs. eexists. apply String_read_short; lia.
Qed.

Lemma short_read_by_type_two_bytes :
  let st := mkStream ["h"; "e"]%byte 0 in
  (∃ st', Int32_read BigEndian st = (inl StructError, st'))
  ∧ (∃ st', String_read 5 Enc_utf8 st = (inr (VStr (pystr_of "he")), st')).
Proof.
  cbn zeta.
  destruct (short_read_by_type BigEndian (mkStream ["h"; "e"]%byte 0))
    as (_ & _ & H32 & Hstr).
  split.
  - apply H32. vm_compute. reflexivity.
  - apply (Hstr 5 Enc_utf8); vm_compute; [discriminate|reflexivity].
Defined.

(** C2 as stated fails for [String]: with the two bytes of ["he"] left,
    [read] of five bytes raises nothing and returns the two-character
    text. *)
Lemma String_read_short_returns :
  (Z.of_nat (List.length (remaining (alone ["h"; "e"]%byte))) < 5
   ∧ String_read 5 Enc_utf8 (alone ["h"; "e"]%byte)
     = (inr (VStr (pystr_of "he")), at_end ["h"; "e"]%byte))
  ∧ ¬ short_read_fails 5 (String_read 5 Enc_utf8).
Proof.
  assert (Z.of_nat (List.length (remaining (alone ["h"; "e"]%byte))) < 5)
    as Hshort by (vm_compute; reflexivity).
  split; [split; [done|reflexivity]|].
  intros Hfails. destruct (Hfails _ Hshort) as (ex & st' & Hrd).
  vm_compute in Hrd. discriminate.
Qed.

(** ** The loops of [Struct.read] and [Struct.write] *)

Lemma for_each_app {S} (body : loc → M S unit) l1 l2 s :
  for_each body (l1 ++ l2) s
  = match for_each body l1 s with
    | (inl e, s') => (inl e, s')
    | (inr _, s') => for_each body l2 s'
    end.
Proof.
  revert s. induction l1 as [|a l1 IH]; intros s; [done|].
  cbn [app for_each]. unfold bind.
  destruct (body a s) as [[e|[]] s']; [done|]. apply IH.
Qed.

Lemma for_each_cons {S} (body : loc → M S unit) a l s :
  for_each body (a :: l) s
  = match body a s with
    | (inl e, s') => (inl e, s')
    | (inr _, s') => for_each body l s'
    end.
Proof. done. Qed.

(** One step of [Struct.read] touches the field it reads, and of that
    field the value only. *)
Lemma read_field_frame a h st r h' st' :
  read_field a (h, st) = (r, (h', st')) →
  (∀ b, b ≠ a → h' b = h b) ∧
  (∀ b, name (h' b) = name (h b) ∧ type (h' b) = type (h b)).
Proof.
  unfold read_field. destruct (Type_read _ st) as [[e|v] st1]; intros ?; simplify_eq.
  - done.
  - split.
    + intros b Hb. by rewrite fn_lookup_insert_ne.
    + intros b. apply store_value_name_type.
Qed.

(** The loop of [Struct.read], whether it completes or raises, touches
    only the fields it went over, and never a name or a type. *)
Lemma read_loop_frame fs h st r h' st' :
  for_each read_field fs (h, st) = (r, (h', st')) →
  (∀ b, b ∉ fs → h' b = h b) ∧
  (∀ b, name (h' b) = name (h b) ∧ type (h' b) = type (h b)).
Proof.
  revert h st. induction fs as [|a fs IH]; intros h st Hrun.
  - cbv [for_each ret] in Hrun. simplify_eq. by split.
  - rewrite for_each_cons in Hrun.
    destruct (read_field a (h, st)) as [[e|[]] [h1 st1]] eqn:Hstep;
      destruct (read_field_frame _ _ _ _ _ _ Hstep) as [Hother Hnt].
    + simplify_eq. split; [|done].
      intros b Hb. apply Hother. intros ->. apply Hb. by left.
    + destruct (IH _ _ Hrun) as [Hother' Hnt'].
      split.
      * intros b Hb. rewrite Hother'.
        -- apply Hother. intros ->. apply Hb. by left.
        -- intros Hin. apply Hb. by right.
      * intros b. destruct (Hnt b) as [<- <-]. apply Hnt'.
Qed.

(** [Struct.write] never changes a field. *)
Lemma write_loop_heap fs h st r h' st' :
  for_each write_field fs (h, st) = (r, (h', st')) → h' = h.
Proof.
  revert st. induction fs as [|a fs IH]; intros st Hrun.
  - cbv [for_each ret] in Hrun. by simplify_eq.
  - rewrite for_each_cons in Hrun. unfold write_field in Hrun.
    destruct (Type_write _ _ st) as [[e|k] st1]; [by simplify_eq|].
    by eapply IH.
Qed.

(** *** Bytes on the wire *)

Lemma stream_write_nonempty bs st :
  bs ≠ [] →
  snd (stream_write bs st)
  = mkStream (take (pos st) (buf st)
                ++ replicate (pos st - List.length (buf st)) Byte.x00
                ++ bs
                ++ drop (pos st + List.length bs) (buf st))
             (pos st + List.length bs).
Proof. by destruct bs. Qed.

Lemma stream_write_app a b st :
  snd (stream_write (a ++ b) st) = snd (stream_write b (snd (stream_write a st))).
Proof.
  destruct a as [|x a0]; [done|]. destruct b as [|y b0].
  { by rewrite app_nil_r. }
  assert (x :: a0 ≠ []) as Ha by done. assert (y :: b0 ≠ []) as Hb by done.
  remember (x :: a0) as a. remember (y :: b0) as b. clear Heqa Heqb x a0 y b0.
  assert (a ++ b ≠ []) as Hab by (by destruct a).
  rewrite !stream_write_nonempty by done.
  destruct st as [bf p]. cbn [buf pos].
  set (P := take p bf ++ replicate (p - List.length bf) Byte.x00).
  assert (List.length P = p) as HP.
  { unfold P. rewrite length_app, length_take, length_replicate. lia. }
  rewrite !(app_assoc (take p bf)). fold P.
  rewrite length_app, Nat.add_assoc. f_equal.
  assert (take (p + List.length a) (P ++ a ++ drop (p + List.length a) bf)
          = P ++ a) as ->.
  { rewrite app_assoc. apply take_app_length'. rewrite length_app. lia. }
  assert (drop (p + List.length a + List.length b)
               (P ++ a ++ drop (p + List.length a) bf)
          = drop (p + List.length a + List.length b) bf) as ->.
  { rewrite app_assoc, drop_app_ge by (rewrite length_app; lia).
    rewrite drop_drop. f_equal. rewrite length_app. lia. }
  replace (p + List.length a
           - List.length (P ++ a ++ drop (p + List.length a) bf))%nat
    with 0%nat by (rewrite !length_app; lia).
  cbn [replicate app]. by rewrite <- !app_assoc.
Qed.

Lemma Type_write_wire t v st :
  Type_write t v st
  = match wire_bytes t v with
    | inl e => (inl e, st)
    | inr bs => stream_write bs st
    end.
Proof.
  destruct t; cbn [Type_write wire_bytes];
    unfold Int8_write, Int16_write, Int32_write, String_write, bind, lift;
    by destruct (_ : Exn + list byte).
Qed.

(** What a type writes to an empty stream is what it writes anywhere. *)
Lemma Type_write_alone t v c k st :
  Type_write t v (alone []) = (inr k, at_end c) →
  Type_write t v st = (inr k, snd (stream_write c st)) ∧ wire_bytes t v = inr c.
Proof.
  rewrite !Type_write_wire. destruct (wire_bytes t v) as [e|bs]; [done|].
  destruct bs as [|b bs]; cbn; intros Hw.
  - injection Hw as <- Hc. by destruct c.
  - rewrite app_nil_r in Hw. unfold at_end in Hw.
    injection Hw as <- <- _. done.
Qed.

(** A read that succeeds on the bytes [c] alone, and ends at their end,
    succeeds with the same value wherever [c] is what comes next. *)
Lemma num_read_alone code e c v st rest :
  num_read code e (alone c) = (inr v, at_end c) →
  remaining st = c ++ rest →
  num_read code e st = (inr v, mkStream (buf st) (pos st + List.length c))
  ∧ Z.of_nat (List.length c) = calcsize e code.
Proof.
  intros Hal Hrem.
  assert (0 <= calcsize e code) as Hw by (by destruct code).
  destruct (stream_read_length (calcsize e code) (alone c))
    as (got & Hrd & Hgot & Hlen); [done|].
  unfold num_read, bind, lift, ret in Hal. rewrite Hrd in Hal.
  destruct (unpack e code got) as [ex|z] eqn:Hun; [done|].
  unfold at_end, alone in Hal. cbn [buf pos] in Hal.
  injection Hal as <- Hend.
  assert (Z.of_nat (List.length got) = calcsize e code) as Hgl.
  { unfold unpack in Hun.
    by destruct (Z.eqb_spec (Z.of_nat (List.length got)) (calcsize e code)). }
  assert (got = c) as ->.
  { unfold remaining, alone in Hgot. cbn in Hgot. subst got.
    apply take_ge. rewrite length_take in Hend. lia. }
  split; [|done].
  destruct (stream_read_length (calcsize e code) st)
    as (got' & Hrd' & Hgot' & _); [done|].
  unfold num_read, bind, lift, ret. rewrite Hrd'.
  assert (got' = c) as ->.
  { subst got'. rewrite Hrem, <- Hgl, Nat2Z.id. apply take_app_length. }
  by rewrite Hun.
Qed.

Lemma Type_read_alone t c v st rest :
  Type_read t (alone c) = (inr v, at_end c) →
  remaining st = c ++ rest →
  Type_read t st = (inr v, mkStream (buf st) (pos st + List.length c)).
Proof.
  destruct t; cbn [Type_read]; [..|done];
    intros Hal Hrem; by eapply num_read_alone.
Qed.

(** *** The values [Struct.read] assigns *)

Lemma assign_all_app h l1 l2 :
  assign_all h (l1 ++ l2) = assign_all (assign_all h l1) l2.
Proof. apply foldl_app. Qed.

Lemma assign_all_other h avs b : b ∉ avs.*1 → assign_all h avs b = h b.
Proof.
  revert h. induction avs as [|[a v] avs IH]; intros h Hb; [done|].
  cbn [assign_all foldl fst snd]. fold (assign_all (<[a:=with_value v (h a)]> h) avs).
  rewrite IH.
  - apply fn_lookup_insert_ne. intros ->. apply Hb. by left.
  - intros Hin. apply Hb. by right.
Qed.

Lemma assign_all_name_type h avs b :
  name (assign_all h avs b) = name (h b) ∧ type (assign_all h avs b) = type (h b).
Proof.
  revert h. induction avs as [|[a v] avs IH]; intros h; [done|].
  cbn [assign_all foldl fst snd]. fold (assign_all (<[a:=with_value v (h a)]> h) avs).
  destruct (IH (<[a:=with_value v (h a)]> h)) as [-> ->].
  apply store_value_name_type.
Qed.

(** A field holds the value of the last assignment made to it. *)
Lemma assign_all_last h l1 a v l2 :
  a ∉ l2.*1 → value (assign_all h (l1 ++ (a, v) :: l2) a) = v.
Proof.
  intros Ha. rewrite assign_all_app.
  change ((a, v) :: l2) with ([(a, v)] ++ l2).
  rewrite assign_all_app, assign_all_other by done.
  cbn. by rewrite fn_lookup_insert.
Qed.

Lemma assign_all_at h (fs : list loc) (vals : list PyVal) j a v :
  fs !! j = Some a → vals !! j = Some v →
  a ∉ drop (S j) fs →
  value (assign_all h (zip fs vals) a) = v.
Proof.
  intros Hfs Hvals Hlater.
  rewrite <- (take_drop_middle fs j a Hfs), <- (take_drop_middle vals j v Hvals).
  apply lookup_lt_Some in Hfs as Hj1. apply lookup_lt_Some in Hvals as Hj2.
  rewrite zip_with_app by (rewrite !length_take; lia).
  cbn [zip_with].
  apply assign_all_last.
  intros [[a' v'] [? Hin]]%list_elem_of_fmap. simplify_eq/=.
  apply elem_of_zip_l in Hin. done.
Qed.

(** [Struct.read] takes the stream chunk by chunk, the chunk of a field
    after the chunks of the fields declared before it. *)
Lemma read_loop_chunks fs h st (cvs : list (list byte * PyVal)) rest :
  Forall2 (λ a cv, Type_read (type (h a)) (alone cv.1) = (inr cv.2, at_end cv.1))
          fs cvs →
  remaining st = concat cvs.*1 ++ rest →
  for_each read_field fs (h, st)
  = (inr tt, (assign_all h (zip fs cvs.*2),
              mkStream (buf st) (pos st + List.length (concat cvs.*1)))).
Proof.
  revert h st cvs.
  induction fs as [|a fs IH]; intros h st cvs Hall Hrem.
  - apply Forall2_nil_inv_l in Hall as ->. cbn.
    unfold ret. rewrite Nat.add_0_r. by destruct st.
  - apply Forall2_cons_inv_l in Hall as ([c v] & cvs' & Hhead & Hall & ->).
    cbn [fmap list_fmap fst snd concat zip_with] in *.
    rewrite <- app_assoc in Hrem.
    pose proof (Type_read_alone _ _ _ _ _ Hhead Hrem) as Hrd.
    rewrite for_each_cons. unfold read_field at 1. rewrite Hrd.
    rewrite (IH _ _ cvs').
    + cbn [buf pos]. by rewrite length_app, Nat.add_assoc.
    + eapply List.Forall2_impl; [|exact Hall]. intros b cv Hb. cbn beta in Hb |- *.
      by destruct (store_value_name_type h a v b) as [_ ->].
    + unfold remaining in *. cbn [buf pos].
      by rewrite <- drop_drop, Hrem, drop_app_length.
Qed.

(** [Struct.write] writes the chunk of a field after the chunks of the
    fields declared before it. *)
Lemma write_loop_chunks fs h st (chunks : list (list byte)) :
  Forall2 (λ a c, ∃ k, Type_write (type (h a)) (value (h a)) (alone [])
                       = (inr k, at_end c)) fs chunks →
  for_each write_field fs (h, st)
  = (inr tt, (h, snd (stream_write (concat chunks) st))).
Proof.
  intros Hall. revert st. induction Hall as [|a c fs chunks [k Hw] _ IH]; intros st.
  - done.
  - rewrite for_each_cons. unfold write_field at 1.
    destruct (Type_write_alone _ _ _ _ st Hw) as [-> _].
    rewrite IH. cbn [concat]. by rewrite stream_write_app.
Qed.

(** ** Declaration order is wire order *)

(** C5: [write] puts the bytes of each field on the stream in the order
    the fields were declared, and [read] takes them in that order: the
    bytes of a field come after the bytes of every field declared before
    it.  For [write], [chunks] are the bytes each field's type writes; for
    [read], [cvs] pairs the bytes of each field with the value its type
    reads from them. *)
Theorem Struct_declaration_order (self : Struct) (h : Heap) (st : Stream) :
  (∀ chunks : list (list byte),
     Forall2 (λ a c, ∃ k, Type_write (type (h a)) (value (h a)) (alone [])
                          = (inr k, at_end c)) (fields self) chunks →
     Struct_write self (h, st)
     = (inr tt, (h, snd (stream_write (concat chunks) st))))
  ∧ (∀ (cvs : list (list byte * PyVal)) (rest : list byte),
       Forall2 (λ a cv, Type_read (type (h a)) (alone cv.1)
                        = (inr cv.2, at_end cv.1)) (fields self) cvs →
       remaining st = concat cvs.*1 ++ rest →
       ∃ h', Struct_read self (h, st)
             = (inr tt, (h', mkStream (buf st)
                                      (pos st + List.length (concat cvs.*1))))
             ∧ h' = assign_all h (zip (fields self) cvs.*2)
             ∧ ∀ j a cv, fields self !! j = Some a → cvs !! j = Some cv →
                         a ∉ drop (S j) (fields self) →
                         value (h' a) = cv.2).
Proof.
  split.
  - intros chunks Hall. by apply write_loop_chunks.
  - intros cvs rest Hall Hrem. eexists. split_and!.
    + by apply (read_loop_chunks _ _ _ _ rest).
    + done.
    + intros j a cv Hj Hcv Hlater.
      apply (assign_all_at _ _ _ j); [done| |done].
      by rewrite list_lookup_fmap, Hcv.
Qed.

(** The example of the specification: with [A : Int8] declared before
    [B : Int16], the byte of [A] is written and read before the two bytes
    of [B]. *)
Lemma Struct_declaration_order_AB :
  Struct_write struct_AB (heap_AB, alone [])
    = (inr tt, (heap_AB, at_end [Byte.x01; Byte.x03; Byte.x02]))
  ∧ ∃ h', Struct_read struct_AB (heap_abc, alone [Byte.x01; Byte.x03; Byte.x02])
          = (inr tt, (h', at_end [Byte.x01; Byte.x03; Byte.x02]))
          ∧ value (h' 0%nat) = VInt 1 ∧ value (h' 1%nat) = VInt 515.
Proof.
  split.
  - apply (proj1 (Struct_declaration_order struct_AB heap_AB (alone []))
             [[Byte.x01]; [Byte.x03; Byte.x02]]).
    repeat constructor; by eexists.
  - destruct (proj2 (Struct_declaration_order struct_AB heap_abc
                       (alone [Byte.x01; Byte.x03; Byte.x02]))
                [([Byte.x01], VInt 1); ([Byte.x03; Byte.x02], VInt 515)] [])
      as (h' & Hrun & _ & Hvals).
    + repeat constructor.
    + reflexivity.
    + exists h'. split_and!.
      * exact Hrun.
      * apply (Hvals 0%nat 0%nat ([Byte.x01], VInt 1)); [done..|].
        cbn. by intros [?|[]%elem_of_nil]%elem_of_cons.
      * apply (Hvals 1%nat 1%nat ([Byte.x03; Byte.x02], VInt 515)); [done..|].
        cbn. by intros []%elem_of_nil.
Defined.

(** ** [Struct.read] is not atomic *)

(** C8: when the fields [pre] are read and the read of the next field [a]
    raises, [Struct.read] raises with the store as the reads of [pre] left
    it.  Every field of [pre] holds the value read for it (the last read,
    should the same object be listed twice); every object that is not in
    [pre], so [a] and every field after it, is as it was before the call. *)
Theorem Struct_read_no_rollback (pre post : list loc) (a : loc)
    (h h1 : Heap) (st st1 st2 : Stream) (e : Exn) :
  Struct_read (mkStruct pre) (h, st) = (inr tt, (h1, st1)) →
  Type_read (type (h a)) st1 = (inl e, st2) →
  Struct_read (mkStruct (pre ++ a :: post)) (h, st) = (inl e, (h1, st2))
  ∧ (∀ b, b ∉ pre → h1 b = h b)
  ∧ (∀ b, name (h1 b) = name (h b) ∧ type (h1 b) = type (h b))
  ∧ (∀ j b, pre !! j = Some b → b ∉ drop (S j) pre →
       ∃ hj stj v stj',
         Struct_read (mkStruct (take j pre)) (h, st) = (inr tt, (hj, stj)) ∧
         Type_read (type (h b)) stj = (inr v, stj') ∧
         value (h1 b) = v).
Proof.
  unfold Struct_read. cbn [fields]. intros Hpre Hfail.
  destruct (read_loop_frame _ _ _ _ _ _ Hpre) as [Hother Hnt].
  split_and!; [|done..|].
  - rewrite for_each_app, Hpre, for_each_cons. unfold read_field at 1.
    destruct (Hnt a) as [_ ->]. by rewrite Hfail.
  - intros j b Hj Hlater.
    rewrite <- (take_drop_middle pre j b Hj), for_each_app in Hpre.
    destruct (for_each read_field (take j pre) (h, st))
      as [[ex|[]] [hj stj]] eqn:Hj1; [done|].
    rewrite for_each_cons in Hpre.
    destruct (read_field b (hj, stj)) as [[ex|[]] [hb stb]] eqn:Hstep; [done|].
    destruct (read_loop_frame _ _ _ _ _ _ Hj1) as [_ Hntj].
    destruct (read_loop_frame _ _ _ _ _ _ Hpre) as [Hrest _].
    unfold read_field in Hstep. destruct (Hntj b) as [_ Htb].
    rewrite Htb in Hstep.
    destruct (Type_read (type (h b)) stj) as [[ex|v] stj'] eqn:Hrd; [done|].
    simplify_eq. exists hj, stj, v, stb. split_and!; [done..|].
    rewrite Hrest by done. by rewrite fn_lookup_insert.
Qed.

(** A stream that ends inside the third field: the first two fields hold
    what was read, the third is as it was. *)
Lemma Struct_read_no_rollback_truncated :
  ∃ h1 st2,
    Struct_read struct_abc (heap_abc, five_bytes) = (inl StructError, (h1, st2))
    ∧ value (h1 0%nat) = VInt 1 ∧ value (h1 1%nat) = VInt 515
    ∧ h1 2%nat = heap_abc 2%nat.
Proof.
  destruct (Struct_read_no_rollback [0; 1]%nat [] 2%nat heap_abc _ five_bytes
              _ _ StructError eq_refl eq_refl) as (Hrun & Hother & _ & _).
  eexists _, _. split; [exact Hrun|]. split_and!; [reflexivity..|].
  apply Hother. intros [?|[?|[]%elem_of_nil]%elem_of_cons]%elem_of_cons; lia.
Defined.

(** ** Round trips through a [Struct] *)

(** [Struct.read] cannot complete on a [Struct] that has a [String]
    field: the call of [String.read] lacks its [size] argument. *)
Lemma Struct_read_String_raises (self : Struct) (h : Heap) (st : Stream) a n :
  a ∈ fields self → type (h a) = String_ n →
  ∃ e s', Struct_read self (h, st) = (inl e, s').
Proof.
  unfold Struct_read. intros Hin Hty.
  apply list_elem_of_split in Hin as (pre & post & ->).
  rewrite for_each_app.
  destruct (for_each read_field pre (h, st)) as [[e|[]] [h1 st1]] eqn:Hpre;
    [by eauto|].
  destruct (read_loop_frame _ _ _ _ _ _ Hpre) as [_ Hnt].
  rewrite for_each_cons. unfold read_field at 1.
  destruct (Hnt a) as [_ ->]. rewrite Hty. cbn. eauto.
Qed.

(** C1, at a [Struct] with one [String] field: [write] puts the five
    bytes of ["hello"] on the stream; after [seek(0)], [read] into a
    [Struct] of the same schema raises [TypeError], reads nothing, and the
    field keeps its unset value. *)
Theorem Struct_roundtrip_String_raises :
  Struct_write (mkStruct [0%nat]) (heap_hello, alone [])
    = (inr tt, (heap_hello, at_end ["h"; "e"; "l"; "l"; "o"]%byte))
  ∧ Struct_read (mkStruct [1%nat])
                (heap_hello, stream_seek 0 (at_end ["h"; "e"; "l"; "l"; "o"]%byte))
    = (inl TypeError, (heap_hello, alone ["h"; "e"; "l"; "l"; "o"]%byte))
  ∧ value (heap_hello 1%nat) = VNone
  ∧ value (heap_hello 0%nat) = VStr (pystr_of "hello").
Proof. split_and!; reflexivity. Qed.

(** ** Text: [encode] then [decode] *)

Ltac div_lia := Z.to_euclidean_division_equations; lia.

Ltac decide_tests :=
  repeat match goal with
    | |- context [?a <? ?b] =>
        destruct (Z.ltb_spec a b); try (exfalso; div_lia)
    | |- context [?a <=? ?b] =>
        destruct (Z.leb_spec a b); try (exfalso; div_lia)
    end.

Lemma utf8_decode_cons b0 r0 :
  utf8_decode (b0 :: r0) =
    let v0 := byte_val b0 in
    if v0 <? 0x80 then option_map (cons v0) (utf8_decode r0)
    else if v0 <? 0xC2 then None
    else if v0 <? 0xE0 then
      match r0 with
      | b1 :: r1 =>
        match cont b1 with
        | Some x1 =>
          option_map (cons ((v0 - 0xC0) * 64 + x1)) (utf8_decode r1)
        | None => None
        end
      | _ => None
      end
    else if v0 <? 0xF0 then
      match r0 with
      | b1 :: b2 :: r2 =>
        match cont b1, cont b2 with
        | Some x1, Some x2 =>
          let c := (v0 - 0xE0) * 4096 + x1 * 64 + x2 in
          if (c <? 0x800) || ((0xD800 <=? c) && (c <=? 0xDFFF)) then None
          else option_map (cons c) (utf8_decode r2)
        | _, _ => None
        end
      | _ => None
      end
    else if v0 <? 0xF5 then
      match r0 with
      | b1 :: b2 :: b3 :: r3 =>
        match cont b1, cont b2, cont b3 with
        | Some x1, Some x2, Some x3 =>
          let c := (v0 - 0xF0) * 262144 + x1 * 4096 + x2 * 64 + x3 in
          if (c <? 0x10000) || (0x10FFFF <? c) then None
          else option_map (cons c) (utf8_decode r3)
        | _, _, _ => None
        end
      | _ => None
      end
    else None.
Proof. done. Qed.

Lemma cont_mk_byte x : 0 <= x < 64 → cont (mk_byte (0x80 + x)) = Some x.
Proof.
  intros Hx. unfold cont. rewrite byte_val_mk_byte, Z.mod_small by lia.
  decide_tests. cbn. f_equal. lia.
Qed.

Lemma lead_mk_byte x : 0 <= x < 256 → byte_val (mk_byte x) = x.
Proof. intros Hx. by rewrite byte_val_mk_byte, Z.mod_small. Qed.

Lemma utf8_decode_encode_cp c a rest :
  utf8_encode_cp c = Some a →
  utf8_decode (a ++ rest) = option_map (cons c) (utf8_decode rest).
Proof.
  unfold utf8_encode_cp.
  destruct (Z.ltb_spec c 0); [done|].
  destruct (Z.ltb_spec c 0x80).
  { intros [= <-]. cbn [app]. rewrite utf8_decode_cons. cbv zeta.
    rewrite lead_mk_byte by lia. decide_tests. done. }
  destruct (Z.ltb_spec c 0x800).
  { intros [= <-]. cbn [app]. rewrite utf8_decode_cons. cbv zeta.
    rewrite lead_mk_byte, cont_mk_byte by div_lia.
    decide_tests. do 2 f_equal. div_lia. }
  destruct (Z.ltb_spec c 0x10000).
  { destruct (Z.leb_spec 0xD800 c); destruct (Z.leb_spec c 0xDFFF); cbn [andb];
      try done; intros [= <-]; cbn [app]; rewrite utf8_decode_cons; cbv zeta;
      rewrite lead_mk_byte, !cont_mk_byte by div_lia;
      replace ((0xE0 + c / 4096 - 0xE0) * 4096 + (c / 64) mod 64 * 64 + c mod 64)
        with c by div_lia;
      decide_tests; done. }
  destruct (Z.ltb_spec c 0x110000); [|done].
  intros [= <-]. cbn [app]. rewrite utf8_decode_cons. cbv zeta.
  rewrite lead_mk_byte, !cont_mk_byte by div_lia.
  replace ((0xF0 + c / 262144 - 0xF0) * 262144 + (c / 4096) mod 64 * 4096
           + (c / 64) mod 64 * 64 + c mod 64) with c by div_lia.
  decide_tests; done.
Qed.

Lemma utf8_decode_encode s bs : utf8_encode s = Some bs → utf8_decode bs = Some s.
Proof.
  revert bs. induction s as [|c s IH]; intros bs; cbn [utf8_encode].
  - by intros [= <-].
  - destruct (utf8_encode_cp c) as [a|] eqn:Hc; [|done].
    destruct (utf8_encode s) as [b|]; [|done]. intros [= <-].
    rewrite (utf8_decode_encode_cp _ _ _ Hc), (IH b) by done. done.
Qed.

Lemma narrow_decode_encode bound s bs :
  bound <= 256 →
  narrow_encode bound s = Some bs → narrow_decode bound bs = Some s.
Proof.
  intros Hb. revert bs. induction s as [|c s IH]; intros bs; cbn [narrow_encode].
  - by intros [= <-].
  - destruct (Z.leb_spec 0 c); [|done]. destruct (Z.ltb_spec c bound); [|done].
    cbn [andb]. destruct (narrow_encode bound s) as [b|]; [|done].
    intros [= <-]. cbn [narrow_decode]. rewrite lead_mk_byte by lia.
    destruct (Z.ltb_spec c bound); [|lia]. by rewrite (IH b).
Qed.

(** In every modelled encoding, decoding what [encode] produced gives
    the text back. *)
Lemma bytes_decode_encode enc s bs :
  str_encode enc s = inr bs → bytes_decode enc bs = inr s.
Proof.
  unfold str_encode, bytes_decode. destruct enc.
  - destruct (utf8_encode s) as [b|] eqn:He; [|done]. intros [= <-].
    by rewrite (utf8_decode_encode _ _ He).
  - destruct (narrow_encode 256 s) as [b|] eqn:He; [|done]. intros [= <-].
    by rewrite (narrow_decode_encode 256 _ _ ltac:(lia) He).
  - destruct (narrow_encode 128 s) as [b|] eqn:He; [|done]. intros [= <-].
    by rewrite (narrow_decode_encode 128 _ _ ltac:(lia) He).
Qed.

(** [String.write] followed by [String.read] of as many bytes as the
    text encodes to returns the text. *)
Lemma String_roundtrip enc s bs st :
  str_encode enc s = inr bs →
  write_seek_read (String_write (VStr s) enc)
                  (String_read (Z.of_nat (List.length bs)) enc) st
  = (inr (VStr s), snd (stream_write bs st)).
Proof.
  intros He. unfold write_seek_read, String_write, bind, lift.
  cbn [encode_method]. rewrite He.
  destruct (stream_write bs st) as [[ex|k] st1] eqn:Hw.
  { by destruct bs. }
  cbn [snd]. replace st1 with (snd (stream_write bs st)) by by rewrite Hw.
  unfold String_read, bind, lift, ret.
  rewrite stream_write_read_back, (bytes_decode_encode _ _ _ He). done.
Qed.

(** [String(length=5).write(stream, "hello")] writes five bytes, and
    [read(stream, 5)] on them returns ["hello"]. *)
Example String_hello :
  String_write (VStr (pystr_of "hello")) Enc_utf8 (alone [])
    = (inr 5, at_end ["h"; "e"; "l"; "l"; "o"]%byte)
  ∧ String_read 5 Enc_utf8 (alone ["h"; "e"; "l"; "l"; "o"]%byte)
    = (inr (VStr (pystr_of "hello")), at_end ["h"; "e"; "l"; "l"; "o"]%byte).
Proof. split; reflexivity. Qed.

(** ** Round trip of a [Struct] of integer fields *)

Lemma Type_read_num t c : num_code t = Some c → Type_read t = num_read c LittleEndian.
Proof. destruct t; intros [= <-]; done. Qed.

Lemma Type_write_num t c v :
  num_code t = Some c → Type_write t v = num_write c v LittleEndian.
Proof. destruct t; intros [= <-]; done. Qed.

(** One integer field: the bytes its type writes, alone, are bytes its
    type reads the value back from. *)
Lemma num_field_alone t c z :
  num_code t = Some c → in_range c z →
  ∃ bs, (∃ k, Type_write t (VInt z) (alone []) = (inr k, at_end bs))
        ∧ Type_read t (alone bs) = (inr (VInt z), at_end bs).
Proof.
  intros Ht Hr. rewrite (Type_read_num _ _ Ht), (Type_write_num _ _ _ Ht).
  pose proof (pack_in_range LittleEndian c z Hr) as Hp.
  pose proof (pack_length _ _ _ _ Hp) as Hlen.
  remember (order LittleEndian
              (le_bytes (Z.to_nat (calcsize LittleEndian c)) z)) as bs.
  assert (bs ≠ []) as Hne.
  { intros ->. destruct c; cbn in Hlen; lia. }
  exists bs. split.
  - exists (calcsize LittleEndian c). rewrite num_write_in_range by done.
    rewrite <- Heqbs, stream_write_nonempty by done.
    cbn. by rewrite drop_nil, app_nil_r.
  - eapply num_read_packed; [done|].
    unfold stream_read, alone, at_end. cbn [buf pos drop].
    rewrite <- Hlen.
    destruct (Z.ltb_spec (Z.of_nat (List.length bs)) 0); [lia|].
    by rewrite Nat2Z.id, firstn_all.
Qed.

Lemma NoDup_not_later (fs : list loc) j b :
  NoDup fs → fs !! j = Some b → b ∉ drop (S j) fs.
Proof.
  intros Hnd Hj. rewrite <- (take_drop_middle fs j b Hj) in Hnd.
  apply NoDup_app in Hnd as (_ & _ & Hnd). by apply NoDup_cons in Hnd as [? _].
Qed.

(** For a [Struct] whose fields are integer fields holding integers of
    their signed range: [write], [seek] back to where the write began, and
    [read] into a [Struct] of the same types (distinct [Field] objects)
    complete, and each field read holds the value of the field written. *)
Lemma Struct_roundtrip_num (S1 S2 : Struct) (h : Heap) (st : Stream) :
  Forall2 (λ a b, type (h b) = type (h a) ∧
                  ∃ c z, num_code (type (h a)) = Some c ∧
                         value (h a) = VInt z ∧ in_range c z)
          (fields S1) (fields S2) →
  NoDup (fields S2) →
  ∃ st1 h' st',
    Struct_write S1 (h, st) = (inr tt, (h, st1)) ∧
    Struct_read S2 (h, stream_seek (pos st) st1) = (inr tt, (h', st')) ∧
    Forall2 (λ a b, value (h' b) = value (h a)) (fields S1) (fields S2).
Proof.
  intros Hall Hnd.
  assert (∃ cvs : list (list byte * PyVal),
            Forall2 (λ a c, ∃ k, Type_write (type (h a)) (value (h a)) (alone [])
                                 = (inr k, at_end c)) (fields S1) cvs.*1
            ∧ Forall2 (λ b cv, Type_read (type (h b)) (alone cv.1)
                               = (inr cv.2, at_end cv.1)) (fields S2) cvs
            ∧ Forall2 (λ a cv, cv.2 = value (h a)) (fields S1) cvs)
    as (cvs & Hw & Hr & Hv).
  { clear Hnd. induction Hall as [|a b l1 l2 (Hty & c & z & Hc & Hval & Hrg) _ IH].
    - exists []. split_and!; constructor.
    - destruct IH as (cvs & Hw & Hr & Hv).
      destruct (num_field_alone _ _ _ Hc Hrg) as (bs & Hwa & Hra).
      exists ((bs, VInt z) :: cvs). split_and!; constructor; try done.
      + by rewrite Hval.
      + by rewrite Hty. }
  pose proof (write_loop_chunks _ h st _ Hw : Struct_write S1 (h, st) = _)
    as Hwrite.
  set (st1 := snd (stream_write (concat cvs.*1) st)) in *.
  assert (remaining (stream_seek (pos st) st1)
          = concat cvs.*1 ++ drop (pos st + List.length (concat cvs.*1)) (buf st))
    as Hrem.
  { unfold st1. destruct (concat cvs.*1) as [|x l] eqn:Hcat.
    - rewrite stream_write_nil. cbn [snd]. rewrite stream_seek_pos.
      unfold remaining. cbn. by rewrite Nat.add_0_r.
    - by apply stream_write_remaining. }
  pose proof (read_loop_chunks _ h _ _ _ Hr Hrem : Struct_read S2 _ = _) as Hread.
  eexists st1, _, _. split_and!; [done..|].
  apply Forall2_same_length_lookup_2.
  - by eapply Forall2_length.
  - intros j a b Ha Hb.
    destruct (Forall2_lookup_l _ _ _ _ _ Hv Ha) as (cv & Hcv & <-).
    apply (assign_all_at _ _ _ j); [done| |by apply NoDup_not_later].
    by rewrite list_lookup_fmap, Hcv.
Qed.

(** An instance: [A = 1], [B = 515] written from one [Struct] and read
    into another. *)
Example Struct_roundtrip_AB :
  ∃ st1 h',
    Struct_write struct_AB (heap_AB, alone []) = (inr tt, (heap_AB, st1)) ∧
    Struct_read struct_AB (heap_abc, stream_seek 0 st1) = (inr tt, (h', st1)) ∧
    value (h' 0%nat) = VInt 1 ∧ value (h' 1%nat) = VInt 515.
Proof. eexists _, _. split_and!; reflexivity. Qed.

(** * Further properties of the code *)

(** ** The integer types, called directly *)

Lemma pow_bits e c : 256 ^ Z.of_nat (Z.to_nat (calcsize e c)) = 2 ^ (8 * calcsize e c).
Proof. by destruct c. Qed.

(** What [write] of an integer does, for any format code. *)
Lemma num_write_cases c e z st :
  (in_range c z →
     ∃ bs, num_write c (VInt z) e st
           = (inr (calcsize e c), snd (stream_write bs st))
           ∧ Z.of_nat (List.length bs) = calcsize e c
           ∧ le_value (order e bs) = z mod 2 ^ (8 * calcsize e c))
  ∧ (¬ in_range c z → num_write c (VInt z) e st = (inl StructError, st)).
Proof.
  split.
  - intros Hr. eexists. split_and!.
    + by apply num_write_in_range.
    + by apply (pack_length e c (VInt z)), pack_in_range.
    + by rewrite order_involutive, le_value_le_bytes, pow_bits.
  - apply num_write_out_of_range.
Qed.

(** X1: [Int8.write], [Int16.write] and [Int32.write] of an integer of
    the signed range write 1, 2 and 4 bytes, return that count, and the
    bytes are the two's complement of the integer ([z mod 2^8], [2^16],
    [2^32], in the byte order asked for).  Outside the range they raise
    [struct.error] and the stream is untouched. *)
Theorem Int_write_twos_complement (e : Endian) (z : Z) (st : Stream) :
  ((-128 <= z <= 127 →
      ∃ bs, Int8_write (VInt z) e st = (inr 1, snd (stream_write bs st))
            ∧ Z.of_nat (List.length bs) = 1
            ∧ le_value (order e bs) = z mod 2 ^ 8)
   ∧ (¬ -128 <= z <= 127 → Int8_write (VInt z) e st = (inl StructError, st)))
  ∧ ((-32768 <= z <= 32767 →
      ∃ bs, Int16_write (VInt z) e st = (inr 2, snd (stream_write bs st))
            ∧ Z.of_nat (List.length bs) = 2
            ∧ le_value (order e bs) = z mod 2 ^ 16)
   ∧ (¬ -32768 <= z <= 32767 → Int16_write (VInt z) e st = (inl StructError, st)))
  ∧ ((-2147483648 <= z <= 2147483647 →
      ∃ bs, Int32_write (VInt z) e st = (inr 4, snd (stream_write bs st))
            ∧ Z.of_nat (List.length bs) = 4
            ∧ le_value (order e bs) = z mod 2 ^ 32)
   ∧ (¬ -2147483648 <= z <= 2147483647 →
      Int32_write (VInt z) e st = (inl StructError, st))).
Proof.
  split; [|split].
  - exact (num_write_cases Code_b e z st).
  - exact (num_write_cases Code_h e z st).
  - exact (num_write_cases Code_i e z st).
Qed.

Lemma Int_write_twos_complement_minus_two :
  (∃ bs, Int16_write (VInt (-2)) BigEndian (alone [])
         = (inr 2, snd (stream_write bs (alone [])))
         ∧ Z.of_nat (List.length bs) = 2
         ∧ le_value (order BigEndian bs) = 65534)
  ∧ Int8_write (VInt 128) LittleEndian (alone []) = (inl StructError, alone []).
Proof.
  destruct (Int_write_twos_complement BigEndian (-2) (alone []))
    as (_ & [H16 _] & _).
  destruct (Int_write_twos_complement LittleEndian 128 (alone []))
    as ([_ H8] & _).
  split.
  - apply H16. lia.
  - apply H8. lia.
Defined.

(** A read with enough bytes left, for any format code. *)
Lemma num_read_enough c e st :
  calcsize e c <= Z.of_nat (List.length (remaining st)) →
  ∃ z, num_read c e st
       = (inr (VInt z), mkStream (buf st) (pos st + Z.to_nat (calcsize e c)))
       ∧ in_range c z
       ∧ unpack e c (take (Z.to_nat (calcsize e c)) (remaining st)) = inr z.
Proof.
  intros Hlen.
  assert (0 <= calcsize e c) as Hw by (by destruct c).
  destruct (stream_read_length (calcsize e c) st) as (got & Hrd & Hgot & Hgl);
    [done|].
  assert (List.length got = Z.to_nat (calcsize e c)) as Hgl' by lia.
  unfold num_read, bind, lift, ret. rewrite Hrd, Hgl'.
  destruct (unpack e c got) as [ex|z] eqn:Hun.
  - unfold unpack in Hun.
    destruct (Z.eqb_spec (Z.of_nat (List.length got)) (calcsize e c)); [done|lia].
  - exists z. split_and!; [done| |by subst got].
    by eapply unpack_in_range.
Qed.

(** X2: with at least as many bytes left as its width, [read] of an
    integer type returns an [int] of the signed range of the type, has
    moved the position by exactly the width, and has not changed the
    buffer. *)
Theorem Int_read_enough_bytes (e : Endian) (st : Stream) :
  (1 <= Z.of_nat (List.length (remaining st)) →
     ∃ z, Int8_read e st = (inr (VInt z), mkStream (buf st) (pos st + 1))
          ∧ -128 <= z <= 127)
  ∧ (2 <= Z.of_nat (List.length (remaining st)) →
     ∃ z, Int16_read e st = (inr (VInt z), mkStream (buf st) (pos st + 2))
          ∧ -32768 <= z <= 32767)
  ∧ (4 <= Z.of_nat (List.length (remaining st)) →
     ∃ z, Int32_read e st = (inr (VInt z), mkStream (buf st) (pos st + 4))
          ∧ -2147483648 <= z <= 2147483647).
Proof.
  split_and!; intros Hlen.
  - destruct (num_read_enough Code_b e st Hlen) as (z & Hrd & Hr & _). eauto.
  - destruct (num_read_enough Code_h e st Hlen) as (z & Hrd & Hr & _). eauto.
  - destruct (num_read_enough Code_i e st Hlen) as (z & Hrd & Hr & _). eauto.
Qed.

Lemma Int_read_enough_bytes_five :
  (∃ z, Int8_read LittleEndian five_bytes
        = (inr (VInt z), mkStream (buf five_bytes) 1) ∧ -128 <= z <= 127)
  ∧ (∃ z, Int32_read LittleEndian five_bytes
          = (inr (VInt z), mkStream (buf five_bytes) 4)
          ∧ -2147483648 <= z <= 2147483647).
Proof.
  destruct (Int_read_enough_bytes LittleEndian five_bytes) as (H8 & _ & H32).
  split.
  - apply H8. vm_compute. discriminate.
  - apply H32. vm_compute. discriminate.
Defined.

(** X3: [Int8] has one byte, so the byte order does not matter: [write]
    and [read] behave the same for ["<"] and [">"], on every value and
    every stream. *)
Theorem Int8_byte_order_irrelevant (v : PyVal) (st : Stream) :
  Int8_write v LittleEndian st = Int8_write v BigEndian st
  ∧ Int8_read LittleEndian st = Int8_read BigEndian st.
Proof.
  split.
  - unfold Int8_write, bind, lift.
    replace (pack BigEndian Code_b v) with (pack LittleEndian Code_b v); [done|].
    unfold pack. cbn [calcsize].
    by destruct v as [|b|z| |]; try done; destruct (_ && _).
  - unfold Int8_read, bind, lift, ret. cbn [calcsize].
    destruct (stream_read 1 st) as [[ex|bs] st']; [done|].
    replace (unpack BigEndian Code_b bs) with (unpack LittleEndian Code_b bs);
      [done|].
    unfold unpack. cbn [calcsize].
    destruct (Z.eqb_spec (Z.of_nat (List.length bs)) 1) as [Hlen|]; [|done].
    destruct bs as [|b [|b' bs]]; cbn in Hlen; try lia. done.
Qed.

(** X4: every integer of the signed range of [Int8], [Int16] or [Int32]
    comes back from [write], [seek] to where the write began, [read], in
    either byte order and whatever the stream held before. *)
Theorem Int_roundtrip (e : Endian) (z : Z) (st : Stream) :
  (-128 <= z <= 127 →
     write_seek_read (Int8_write (VInt z) e) (Int8_read e) st
     = (inr (VInt z), snd (Int8_write (VInt z) e st)))
  ∧ (-32768 <= z <= 32767 →
     write_seek_read (Int16_write (VInt z) e) (Int16_read e) st
     = (inr (VInt z), snd (Int16_write (VInt z) e st)))
  ∧ (-2147483648 <= z <= 2147483647 →
     write_seek_read (Int32_write (VInt z) e) (Int32_read e) st
     = (inr (VInt z), snd (Int32_write (VInt z) e st))).
Proof.
  split_and!; intros Hr.
  - by apply (num_roundtrip Code_b).
  - by apply (num_roundtrip Code_h).
  - by apply (num_roundtrip Code_i).
Qed.

Lemma Int_roundtrip_minus_300 :
  write_seek_read (Int16_write (VInt (-300)) BigEndian)
                  (Int16_read BigEndian) five_bytes
  = (inr (VInt (-300)), snd (Int16_write (VInt (-300)) BigEndian five_bytes)).
Proof.
  apply (proj1 (proj2 (Int_roundtrip BigEndian (-300) five_bytes))). lia.
Defined.

(** *** From bytes to an integer and back *)

Lemma mk_byte_mod z : mk_byte (z mod 256) = mk_byte z.
Proof. unfold mk_byte. by rewrite Z.mod_mod. Qed.

Lemma le_bytes_shift n z k : le_bytes n (z + k * 256 ^ Z.of_nat n) = le_bytes n z.
Proof.
  revert z k. induction n as [|n IH]; intros z k; [done|].
  cbn [le_bytes]. rewrite Nat2Z.inj_succ, Z.pow_succ_r by lia.
  f_equal.
  - rewrite <- mk_byte_mod, <- (mk_byte_mod z). f_equal.
    replace (k * (256 * 256 ^ Z.of_nat n)) with (k * 256 ^ Z.of_nat n * 256) by lia.
    apply Z.mod_add. lia.
  - replace (k * (256 * 256 ^ Z.of_nat n)) with (k * 256 ^ Z.of_nat n * 256) by lia.
    rewrite Z.div_add by lia. apply IH.
Qed.

Lemma le_bytes_le_value l : le_bytes (List.length l) (le_value l) = l.
Proof.
  induction l as [|b l IH]; [done|].
  cbn [List.length le_bytes le_value]. pose proof (byte_val_range b).
  f_equal.
  - rewrite <- mk_byte_mod.
    replace ((byte_val b + 256 * le_value l) mod 256) with (byte_val b)
      by div_lia.
    apply mk_byte_byte_val.
  - replace ((byte_val b + 256 * le_value l) / 256) with (le_value l) by div_lia.
    done.
Qed.

(** [pack] inverts [unpack]: the bytes an integer was decoded from are
    the bytes it encodes to. *)
Lemma pack_unpack e c bs z : unpack e c bs = inr z → pack e c (VInt z) = inr bs.
Proof.
  intros Hun. pose proof (unpack_in_range _ _ _ _ Hun) as Hr.
  rewrite pack_in_range by done. f_equal.
  unfold unpack in Hun.
  destruct (Z.eqb_spec (Z.of_nat (List.length bs)) (calcsize e c)) as [Hlen|];
    [|done].
  rewrite <- (order_involutive e bs). f_equal.
  rewrite <- Hlen, Nat2Z.id, <- (length_order e bs).
  set (l := order e bs) in *.
  assert (2 ^ (8 * calcsize e c) = 256 ^ Z.of_nat (List.length l)) as Hpow.
  { unfold l. rewrite length_order, Hlen. by destruct c. }
  destruct (le_value l <? 2 ^ (8 * calcsize e c - 1)); injection Hun as <-.
  - apply le_bytes_le_value.
  - rewrite Hpow.
    replace (le_value l - 256 ^ Z.of_nat (List.length l))
      with (le_value l + (-1) * 256 ^ Z.of_nat (List.length l)) by lia.
    rewrite le_bytes_shift. apply le_bytes_le_value.
Qed.

(** Writing the bytes that are already at the position changes nothing
    but the position. *)
Lemma stream_write_same bs st :
  take (List.length bs) (remaining st) = bs →
  stream_write bs st
  = (inr (Z.of_nat (List.length bs)),
     mkStream (buf st) (pos st + List.length bs)).
Proof.
  intros Hpre. destruct bs as [|b bs].
  - cbn. rewrite Nat.add_0_r. by destruct st.
  - remember (b :: bs) as l. assert (l ≠ []) as Hne by (by subst).
    pose proof (stream_write_nonempty l st Hne) as Hw.
    destruct (stream_write l st) as [r st1] eqn:Hsw. cbn [snd] in Hw. subst st1.
    assert (r = inr (Z.of_nat (List.length l))) as ->.
    { subst l. cbn in Hsw. by injection Hsw as <-. }
    f_equal. f_equal. unfold remaining in Hpre.
    assert (List.length l <= List.length (drop (pos st) (buf st)))%nat as Hle.
    { rewrite <- Hpre at 1. rewrite length_take. lia. }
    rewrite length_drop in Hle.
    assert (0 < List.length l)%nat by (subst l; cbn; lia).
    replace (pos st - List.length (buf st))%nat with 0%nat by lia.
    cbn [replicate app].
    rewrite <- Hpre at 1. rewrite <- drop_drop, take_drop at 1.
    apply take_drop.
Qed.

Lemma num_read_write_back c e st :
  calcsize e c <= Z.of_nat (List.length (remaining st)) →
  read_seek_write (num_read c e) (λ v, num_write c v e) st
  = (inr (calcsize e c),
     mkStream (buf st) (pos st + Z.to_nat (calcsize e c))).
Proof.
  intros Hlen. destruct (num_read_enough c e st Hlen) as (z & Hrd & _ & Hun).
  unfold read_seek_write. rewrite Hrd.
  unfold stream_seek. cbn [buf pos].
  replace (mkStream (buf st) (pos st)) with st by (by destruct st).
  unfold num_write, bind, lift. rewrite (pack_unpack _ _ _ _ Hun).
  assert (0 <= calcsize e c) as Hw by (by destruct c).
  assert (List.length (take (Z.to_nat (calcsize e c)) (remaining st))
          = Z.to_nat (calcsize e c)) as Hl by (rewrite length_take; lia).
  rewrite stream_write_same by (by rewrite Hl).
  rewrite Hl. do 2 f_equal. lia.
Qed.

(** X5: with enough bytes left, [read] of an integer type, [seek] back,
    and [write] of the value just read, in the same byte order, put back
    the very bytes that were read: the buffer is unchanged and the stream
    ends where the read ended. *)
Theorem Int_read_write_back (e : Endian) (st : Stream) :
  (1 <= Z.of_nat (List.length (remaining st)) →
     read_seek_write (Int8_read e) (λ v, Int8_write v e) st
     = (inr 1, mkStream (buf st) (pos st + 1)))
  ∧ (2 <= Z.of_nat (List.length (remaining st)) →
     read_seek_write (Int16_read e) (λ v, Int16_write v e) st
     = (inr 2, mkStream (buf st) (pos st + 2)))
  ∧ (4 <= Z.of_nat (List.length (remaining st)) →
     read_seek_write (Int32_read e) (λ v, Int32_write v e) st
     = (inr 4, mkStream (buf st) (pos st + 4))).
Proof.
  split_and!; intros Hlen.
  - by apply (num_read_write_back Code_b).
  - by apply (num_read_write_back Code_h).
  - by apply (num_read_write_back Code_i).
Qed.

Lemma Int_read_write_back_five :
  read_seek_write (Int32_read BigEndian) (λ v, Int32_write v BigEndian) five_bytes
  = (inr 4, mkStream (buf five_bytes) 4).
Proof.
  apply (proj2 (proj2 (Int_read_write_back BigEndian five_bytes))).
  vm_compute. discriminate.
Defined.

(** ** [String], called directly *)







(** The number of bytes of an encoded text. *)
Lemma utf8_encode_cp_length c a :
  utf8_encode_cp c = Some a → (1 <= List.length a <= 4)%nat.
Proof.
  unfold utf8_encode_cp.
  destruct (c <? 0); [done|].
  destruct (c <? 0x80); [intros [= <-]; cbn; lia|].
  destruct (c <? 0x800); [intros [= <-]; cbn; lia|].
  destruct (c <? 0x10000).
  { destruct (_ && _); [done|]. intros [= <-]. cbn. lia. }
  destruct (c <? 0x110000); [|done]. intros [= <-]. cbn. lia.
Qed.

Lemma utf8_encode_length s bs :
  utf8_encode s = Some bs →
  (List.length s <= List.length bs <= 4 * List.length s)%nat.
Proof.
  revert bs. induction s as [|c s IH]; intros bs; cbn [utf8_encode].
  - intros [= <-]. cbn. lia.
  - destruct (utf8_encode_cp c) as [a|] eqn:Hc; [|done].
    destruct (utf8_encode s) as [b|]; [|done]. intros [= <-].
    pose proof (utf8_encode_cp_length _ _ Hc). specialize (IH b eq_refl).
    rewrite length_app. cbn [List.length]. lia.
Qed.

Lemma narrow_encode_length bound s bs :
  narrow_encode bound s = Some bs → List.length bs = List.length s.
Proof.
  revert bs. induction s as [|c s IH]; intros bs; cbn [narrow_encode].
  - by intros [= <-].
  - destruct (_ && _); [|done].
    destruct (narrow_encode bound s) as [b|]; [|done]. intros [= <-].
    cbn. by rewrite (IH b).
Qed.

(** X6: [String.write] hands the encoded text to the stream and returns
    the number of bytes, which depends on the text and the encoding only:
    one byte per character in [latin-1] and [ascii], one to four in
    [utf-8].  For a value that is not a [str] it raises [AttributeError],
    and for a text the encoding cannot represent [UnicodeEncodeError]; in
    both cases nothing is written. *)
Theorem String_write_result (string : PyVal) (enc : Encoding) (st : Stream) :
  (∀ s bs, string = VStr s → str_encode enc s = inr bs →
     String_write string enc st
     = (inr (Z.of_nat (List.length bs)), snd (stream_write bs st))
     ∧ (List.length s <= List.length bs <= 4 * List.length s)%nat
     ∧ (enc ≠ Enc_utf8 → List.length bs = List.length s))
  ∧ (∀ s ex, string = VStr s → str_encode enc s = inl ex →
     ex = UnicodeEncodeError ∧ String_write string enc st = (inl ex, st))
  ∧ (type_of string ≠ T_str →
     String_write string enc st = (inl AttributeError, st)).
Proof.
  split_and!.
  - intros s bs -> He. split; [|split].
    + unfold String_write, bind, lift. cbn [encode_method]. rewrite He.
      by destruct bs.
    + unfold str_encode in He. destruct enc.
      * destruct (utf8_encode s) as [b|] eqn:Hu; [|done]. injection He as <-.
        by apply utf8_encode_length.
      * destruct (narrow_encode 256 s) as [b|] eqn:Hu; [|done].
        injection He as <-. rewrite (narrow_encode_length _ _ _ Hu). lia.
      * destruct (narrow_encode 128 s) as [b|] eqn:Hu; [|done].
        injection He as <-. rewrite (narrow_encode_length _ _ _ Hu). lia.
    + intros Henc. unfold str_encode in He. destruct enc; [done|..].
      * destruct (narrow_encode 256 s) as [b|] eqn:Hu; [|done].
        injection He as <-. by apply narrow_encode_length in Hu.
      * destruct (narrow_encode 128 s) as [b|] eqn:Hu; [|done].
        injection He as <-. by apply narrow_encode_length in Hu.
  - intros s ex -> He.
    assert (ex = UnicodeEncodeError) as ->.
    { unfold str_encode in He. by destruct enc; destruct (_ : option _);
        simplify_eq. }
    split; [done|].
    unfold String_write, bind, lift. cbn [encode_method]. by rewrite He.
  - intros Hty. by destruct string.
Qed.

(** The euro sign is one character and three bytes of [utf-8]; [latin-1]
    cannot represent it; an [int] has no [encode]. *)
Lemma String_write_result_euro :
  String_write (VStr [0x20AC]) Enc_utf8 (alone [])
    = (inr 3, at_end [Byte.xe2; Byte.x82; Byte.xac])
  ∧ String_write (VStr [0x20AC]) Enc_latin1 (alone [])
    = (inl UnicodeEncodeError, alone [])
  ∧ String_write (VInt 5) Enc_utf8 (alone []) = (inl AttributeError, alone []).
Proof.
  split_and!.
  - exact (proj1 (proj1 (String_write_result (VStr [0x20AC]) Enc_utf8 (alone []))
                    [0x20AC] [Byte.xe2; Byte.x82; Byte.xac] eq_refl eq_refl)).
  - exact (proj2 (proj1 (proj2 (String_write_result (VStr [0x20AC]) Enc_latin1
                                  (alone [])))
                    [0x20AC] UnicodeEncodeError eq_refl eq_refl)).
  - apply (proj2 (proj2 (String_write_result (VInt 5) Enc_utf8 (alone [])))).
    discriminate.
Defined.

(** X7: [String.write] followed by [seek] back and [String.read] of as
    many bytes as were written returns the text, for every text the
    encoding can represent. *)
Theorem String_write_read (enc : Encoding) (s : pystr) (bs : list byte)
    (st : Stream) :
  str_encode enc s = inr bs →
  write_seek_read (String_write (VStr s) enc)
                  (String_read (Z.of_nat (List.length bs)) enc) st
  = (inr (VStr s), snd (stream_write bs st)).
Proof. apply String_roundtrip. Qed.

Lemma String_write_read_hello :
  write_seek_read (String_write (VStr (pystr_of "hello")) Enc_utf8)
                  (String_read 5 Enc_utf8) five_bytes
  = (inr (VStr (pystr_of "hello")),
     snd (stream_write ["h"; "e"; "l"; "l"; "o"]%byte five_bytes)).
Proof.
  exact (String_write_read Enc_utf8 (pystr_of "hello")
           ["h"; "e"; "l"; "l"; "o"]%byte five_bytes eq_refl).
Defined.



(** X9: a read that fails for lack of bytes has still consumed what was
    left: [Int8.read], [Int16.read] and [Int32.read] raise [struct.error]
    with the position moved past the bytes that remained, and the buffer
    as it was. *)
Theorem Int_short_read_consumes (e : Endian) (st : Stream) :
  (Z.of_nat (List.length (remaining st)) < 1 →
     Int8_read e st
     = (inl StructError, mkStream (buf st) (pos st + List.length (remaining st))))
  ∧ (Z.of_nat (List.length (remaining st)) < 2 →
     Int16_read e st
     = (inl StructError, mkStream (buf st) (pos st + List.length (remaining st))))
  ∧ (Z.of_nat (List.length (remaining st)) < 4 →
     Int32_read e st
     = (inl StructError, mkStream (buf st) (pos st + List.length (remaining st)))).
Proof.
  split_and!; intros Hs.
  - by apply (num_read_short Code_b).
  - by apply (num_read_short Code_h).
  - by apply (num_read_short Code_i).
Qed.

Lemma Int_short_read_consumes_three :
  Int32_read LittleEndian (mkStream (buf five_bytes) 2)
  = (inl StructError, at_end (buf five_bytes)).
Proof.
  apply (proj2 (proj2 (Int_short_read_consumes LittleEndian
                         (mkStream (buf five_bytes) 2)))).
  vm_compute. reflexivity.
Defined.

(** ** [Field.__init__] *)


(** ** [Struct.write] *)

(** A call of [write] on a field's type that raises has written
    nothing. *)
Lemma Type_write_raises t v st e st' :
  Type_write t v st = (inl e, st') → st' = st ∧ wire_bytes t v = inl e.
Proof.
  rewrite Type_write_wire. destruct (wire_bytes t v) as [ex|bs].
  - by intros [= <- <-].
  - by destruct bs.
Qed.

(** X11: [Struct.write] is not atomic either.  When the fields [pre] are
    written and the write of the next field [a] raises, [Struct.write]
    raises with the bytes of [pre] on the stream; the failing field has
    written nothing, and no field has changed. *)
Theorem Struct_write_no_rollback (pre post : list loc) (a : loc)
    (h h1 : Heap) (st st1 st2 : Stream) (e : Exn) :
  Struct_write (mkStruct pre) (h, st) = (inr tt, (h1, st1)) →
  Type_write (type (h a)) (value (h a)) st1 = (inl e, st2) →
  Struct_write (mkStruct (pre ++ a :: post)) (h, st) = (inl e, (h, st1))
  ∧ h1 = h ∧ st2 = st1.
Proof.
  unfold Struct_write. cbn [fields]. intros Hpre Hfail.
  pose proof (write_loop_heap _ _ _ _ _ _ Hpre) as ->.
  destruct (Type_write_raises _ _ _ _ _ Hfail) as [-> _].
  split; [|done].
  rewrite for_each_app, Hpre, for_each_cons. unfold write_field at 1.
  by rewrite Hfail.
Qed.

(** [m = 7] is written, then [n = 300] does not fit an [Int8]. *)
Lemma Struct_write_no_rollback_300 :
  Struct_write (mkStruct [0; 1]%nat) (heap_300, alone [])
  = (inl StructError, (heap_300, at_end [Byte.x07; Byte.x00])).
Proof.
  exact (proj1 (Struct_write_no_rollback [0%nat] [] 1%nat heap_300 _ (alone [])
                  _ _ StructError eq_refl eq_refl)).
Defined.

Lemma stream_write_keeps_prefix bs st :
  (pos st <= List.length (buf st))%nat →
  let st' := snd (stream_write bs st) in
  take (pos st) (buf st') = take (pos st) (buf st)
  ∧ (pos st <= pos st' <= List.length (buf st'))%nat.
Proof.
  intros Hpos. destruct bs as [|b bs]; [cbn; split; [done|lia]|].
  cbn [stream_write snd buf pos].
  replace (pos st - List.length (buf st))%nat with 0%nat by lia.
  cbn [replicate app]. split.
  - rewrite take_app_le by (rewrite length_take; lia).
    rewrite take_take. f_equal. lia.
  - rewrite !length_app, length_take. cbn [List.length]. rewrite length_app. lia.
Qed.

(** X12: [Struct.write] changes no field, whether it returns or raises.
    On a stream whose position is inside the buffer, it leaves the bytes
    before that position as they were, and the position never moves
    back. *)
Theorem Struct_write_frame (self : Struct) (h h' : Heap) (st st' : Stream)
    (r : Exn + unit) :
  Struct_write self (h, st) = (r, (h', st')) →
  h' = h
  ∧ ((pos st <= List.length (buf st))%nat →
     take (pos st) (buf st') = take (pos st) (buf st)
     ∧ (pos st <= pos st' <= List.length (buf st'))%nat).
Proof.
  unfold Struct_write. intros Hrun.
  split; [by eapply write_loop_heap|].
  revert st Hrun. induction (fields self) as [|a fs IH]; intros st Hrun Hpos.
  - cbv [for_each ret] in Hrun. simplify_eq. split; [done|lia].
  - rewrite for_each_cons in Hrun. unfold write_field in Hrun.
    destruct (Type_write _ _ st) as [[ex|k] st1] eqn:Hw.
    + destruct (Type_write_raises _ _ _ _ _ Hw) as [-> _]. simplify_eq.
      split; [done|lia].
    + rewrite Type_write_wire in Hw. destruct (wire_bytes _ _) as [|bs]; [done|].
      pose proof (stream_write_keeps_prefix bs st Hpos) as Hstep.
      destruct (stream_write bs st) as [r1 st1'] eqn:Hsw. cbn [snd] in Hstep.
      simplify_eq. destruct Hstep as [Hpre [Hle1 Hle2]].
      destruct (IH _ Hrun Hle2) as [Hpre' [Hle3 Hle4]].
      split; [|lia].
      assert (∀ l : list byte,
                take (pos st) l = take (pos st) (take (pos st1) l)) as Ht.
      { intros l. rewrite take_take. f_equal. lia. }
      by rewrite (Ht (buf st')), Hpre', <- Ht.
Qed.

Lemma Struct_write_frame_AB :
  ∃ st', Struct_write struct_AB (heap_AB, mkStream (buf five_bytes) 4)
         = (inr tt, (heap_AB, st'))
         ∧ take 4 (buf st') = take 4 (buf five_bytes).
Proof.
  eexists.
  pose proof (Struct_write_frame struct_AB heap_AB _
                (mkStream (buf five_bytes) 4) _ (inr tt) eq_refl) as [_ Hpre].
  split; [reflexivity|]. apply Hpre. cbn. lia.
Defined.

(** A field whose write raises on every stream makes [Struct.write]
    raise. *)
Lemma write_loop_raises fs (h : Heap) a :
  a ∈ fs →
  (∀ st, ∃ e, Type_write (type (h a)) (value (h a)) st = (inl e, st)) →
  ∀ st, ∃ e s', for_each write_field fs (h, st) = (inl e, s').
Proof.
  intros (pre & post & ->)%list_elem_of_split Hfail st.
  rewrite for_each_app.
  destruct (for_each write_field pre (h, st)) as [[e|[]] [h1 st1]] eqn:Hpre;
    [by eauto|].
  pose proof (write_loop_heap _ _ _ _ _ _ Hpre) as ->.
  rewrite for_each_cons. unfold write_field at 1.
  destruct (Hfail st1) as [e ->]. eauto.
Qed.

(** X13: a field that is still unset cannot be written.  [write] of
    [None] raises [struct.error] for [Int8], [Int16] and [Int32] and
    [AttributeError] for [String], writing nothing; so [Struct.write]
    raises on every [Struct] that has an unset field. *)
Theorem Struct_write_unset_raises (self : Struct) (h : Heap) (st : Stream)
    (a : loc) :
  a ∈ fields self → value (h a) = VNone →
  Type_write (type (h a)) VNone st
  = (inl (match num_code (type (h a)) with
          | Some _ => StructError
          | None => AttributeError
          end), st)
  ∧ ∃ e s', Struct_write self (h, st) = (inl e, s').
Proof.
  intros Hin Hval.
  assert (∀ st0, Type_write (type (h a)) VNone st0
                 = (inl (match num_code (type (h a)) with
                         | Some _ => StructError
                         | None => AttributeError
                         end), st0)) as Hw
    by (intros st0; by destruct (type (h a))).
  split; [done|].
  apply (write_loop_raises _ h a Hin). intros st0. rewrite Hval, Hw. eauto.
Qed.

Lemma Struct_write_unset_raises_abc :
  Type_write Int16 VNone (alone []) = (inl StructError, alone [])
  ∧ ∃ e s', Struct_write struct_abc (heap_abc, alone []) = (inl e, s').
Proof.
  apply (Struct_write_unset_raises struct_abc heap_abc (alone []) 1%nat).
  - cbn. apply elem_of_cons. right. apply elem_of_cons. by left.
  - reflexivity.
Defined.

(** X14: [set] accepts an integer that [write] cannot encode.  On a field
    of type [Int8], [Int16] or [Int32], [set] of an integer outside the
    signed range of the type succeeds, and from then on [Struct.write]
    raises, on every stream. *)
Theorem Struct_set_out_of_range_then_write (self : Struct) (h : Heap)
    (n : string) (a : loc) (c : Code) (z : Z) :
  first_named h n (fields self) a →
  num_code (type (h a)) = Some c →
  ¬ in_range c z →
  ∃ h', Struct_set self n (VInt z) h = (inr tt, h')
        ∧ value (h' a) = VInt z
        ∧ ∀ st, ∃ e s', Struct_write self (h', st) = (inl e, s').
Proof.
  intros Hfirst Hc Hr.
  rewrite (Struct_set_at_first self h n (VInt z) a Hfirst).
  assert (Type_verify (type (h a)) (VInt z) = true) as ->
    by (by destruct (type (h a))).
  eexists. split; [done|]. rewrite fn_lookup_insert. split; [done|].
  apply (write_loop_raises _ _ a).
  - destruct Hfirst as (pre & post & -> & _). apply elem_of_app. right. by left.
  - intros st. rewrite fn_lookup_insert. cbn [type value with_value].
    rewrite (Type_write_num _ _ _ Hc), num_write_out_of_range by done. eauto.
Qed.

Lemma Struct_set_out_of_range_then_write_age :
  ∃ h', Struct_set struct_abc "a" (VInt 200) heap_abc = (inr tt, h')
        ∧ value (h' 0%nat) = VInt 200
        ∧ ∀ st, ∃ e s', Struct_write struct_abc (h', st) = (inl e, s').
Proof.
  apply (Struct_set_out_of_range_then_write struct_abc heap_abc "a" 0%nat Code_b 200).
  - exists [], [1; 2]%nat. split_and!; [done| |done]. apply none_named_nil.
  - reflexivity.
  - cbn. lia.
Defined.

(** ** [Struct.read] *)

(** What a step of [Struct.read] that returns has done. *)
Lemma read_field_inv a h st h1 st1 :
  read_field a (h, st) = (inr tt, (h1, st1)) →
  ∃ c z,
    num_code (type (h a)) = Some c ∧ in_range c z
    ∧ calcsize LittleEndian c <= Z.of_nat (List.length (remaining st))
    ∧ unpack LittleEndian c
        (take (Z.to_nat (calcsize LittleEndian c)) (remaining st)) = inr z
    ∧ h1 = <[a := with_value (VInt z) (h a)]> h
    ∧ st1 = mkStream (buf st) (pos st + Z.to_nat (calcsize LittleEndian c)).
Proof.
  unfold read_field.
  destruct (num_code (type (h a))) as [c|] eqn:Hc.
  2:{ by destruct (type (h a)). }
  rewrite (Type_read_num _ _ Hc).
  destruct (Z.lt_ge_cases (Z.of_nat (List.length (remaining st)))
              (calcsize LittleEndian c)) as [Hshort|Hlen].
  - by rewrite num_read_short.
  - destruct (num_read_enough c LittleEndian st Hlen) as (z & -> & Hr & Hun).
    intros ?. simplify_eq. by exists c, z.
Qed.

(** A step of [Struct.read], whatever its outcome, leaves the buffer
    alone and does not move the position back. *)
Lemma read_field_stream a h st r h1 st1 :
  read_field a (h, st) = (r, (h1, st1)) →
  buf st1 = buf st ∧ (pos st <= pos st1)%nat.
Proof.
  unfold read_field.
  assert (∀ c, ∃ r' st', num_read c LittleEndian st = (r', st')
                         ∧ buf st' = buf st ∧ (pos st <= pos st')%nat) as Hnum.
  { intros c. unfold num_read, bind, lift, ret, stream_read.
    destruct (unpack _ _ _); eexists _, _; (split; [done|]); cbn; split;
      done || lia. }
  destruct (num_code (type (h a))) as [c|] eqn:Hc.
  - rewrite (Type_read_num _ _ Hc).
    destruct (Hnum c) as (r' & st' & -> & Hb & Hp).
    destruct r'; intros ?; by simplify_eq.
  - destruct (type (h a)); try done. cbn. intros ?. by simplify_eq.
Qed.

Lemma read_loop_holds fs h st h' st' :
  for_each read_field fs (h, st) = (inr tt, (h', st')) →
  ∀ a, a ∈ fs → holds_num h' a.
Proof.
  revert h st. induction fs as [|a0 fs IH]; intros h st Hrun a Ha.
  { by apply elem_of_nil in Ha. }
  rewrite for_each_cons in Hrun.
  destruct (read_field a0 (h, st)) as [[e|[]] [h1 st1]] eqn:Hstep; [done|].
  destruct (decide (a ∈ fs)) as [Hin|Hnotin]; [by eapply IH|].
  apply elem_of_cons in Ha as [->|?]; [|done].
  destruct (read_field_inv _ _ _ _ _ Hstep) as (c & z & Hc & Hr & _ & _ & -> & _).
  destruct (read_loop_frame _ _ _ _ _ _ Hrun) as [Hother _].
  unfold holds_num. rewrite (Hother a0 Hnotin), fn_lookup_insert.
  by exists c, z.
Qed.

(** X15: after a [Struct.read] that returns, every field of the [Struct]
    holds an [int] of the signed range of its type, a value its type's
    [verify] accepts. *)
Theorem Struct_read_values_verified (self : Struct) (h h' : Heap)
    (st st' : Stream) (a : loc) :
  Struct_read self (h, st) = (inr tt, (h', st')) →
  a ∈ fields self →
  holds_num h' a ∧ Type_verify (type (h' a)) (value (h' a)) = true.
Proof.
  intros Hrun Ha.
  pose proof (read_loop_holds _ _ _ _ _ Hrun a Ha) as Hnum.
  split; [done|]. destruct Hnum as (c & z & Hc & -> & _).
  by destruct (type (h' a)).
Qed.

Lemma Struct_read_values_verified_AB :
  holds_num (snd (Struct_read struct_AB (heap_abc, five_bytes))).1 1%nat
  ∧ Type_verify Int16
      (value ((snd (Struct_read struct_AB (heap_abc, five_bytes))).1 1%nat))
    = true.
Proof.
  assert (1%nat ∈ fields struct_AB) as Hin.
  { cbn. apply elem_of_cons. right. by left. }
  exact (Struct_read_values_verified struct_AB heap_abc
           (snd (Struct_read struct_AB (heap_abc, five_bytes))).1 five_bytes
           (snd (Struct_read struct_AB (heap_abc, five_bytes))).2 1%nat
           eq_refl Hin).
Defined.

Lemma read_loop_stream fs h st r h' st' :
  for_each read_field fs (h, st) = (r, (h', st')) →
  buf st' = buf st ∧ (pos st <= pos st')%nat
  ∧ (r = inr tt →
     pos st' = (pos st + sum_list ((λ a, num_width (type (h a))) <$> fs))%nat
     ∧ (sum_list ((λ a, num_width (type (h a))) <$> fs)
        <= List.length (remaining st))%nat).
Proof.
  revert h st. induction fs as [|a fs IH]; intros h st Hrun.
  { cbv [for_each ret] in Hrun. simplify_eq. cbn. split_and!; [done|lia|].
    intros _. lia. }
  rewrite for_each_cons in Hrun.
  destruct (read_field a (h, st)) as [[e|[]] [h1 st1]] eqn:Hstep.
  - destruct (read_field_stream _ _ _ _ _ _ Hstep) as [Hb Hp]. by simplify_eq.
  - destruct (read_field_stream _ _ _ _ _ _ Hstep) as [Hb Hp].
    destruct (IH _ _ Hrun) as (Hb' & Hp' & Hok).
    split_and!; [congruence|lia|]. intros ->.
    destruct (Hok eq_refl) as [Hpos Hsum].
    destruct (read_field_inv _ _ _ _ _ Hstep)
      as (c & z & Hc & _ & Hlen & _ & -> & ->).
    assert (((λ b, num_width (type ((<[a:=with_value (VInt z) (h a)]> h) b)))
               <$> fs)
            = ((λ b, num_width (type (h b))) <$> fs)) as Hty.
    { apply list_fmap_ext. intros _ b _.
      by destruct (store_value_name_type h a (VInt z) b) as [_ ->]. }
    rewrite Hty in Hpos, Hsum. cbn [fmap list_fmap sum_list sum_list_with].
    fold (sum_list ((λ b, num_width (type (h b))) <$> fs)).
    unfold num_width at 1 3. rewrite Hc.
    unfold remaining in *. cbn [buf pos] in *.
    rewrite length_drop in *. unfold id in *. lia.
Qed.

(** X16: [Struct.read] never changes the buffer of the stream and never
    moves the position back, whether it returns or raises.  When it
    returns, the position has moved by the sum of the widths of the
    fields (1, 2 or 4 bytes each), and that many bytes were there. *)
Theorem Struct_read_stream (self : Struct) (h h' : Heap) (st st' : Stream)
    (r : Exn + unit) :
  Struct_read self (h, st) = (r, (h', st')) →
  buf st' = buf st ∧ (pos st <= pos st')%nat
  ∧ (r = inr tt →
     pos st'
     = (pos st + sum_list ((λ a, num_width (type (h a))) <$> fields self))%nat
     ∧ (sum_list ((λ a, num_width (type (h a))) <$> fields self)
        <= List.length (remaining st))%nat).
Proof. apply read_loop_stream. Qed.

Lemma Struct_read_stream_AB :
  ∃ h' st', Struct_read struct_AB (heap_abc, five_bytes) = (inr tt, (h', st'))
            ∧ buf st' = buf five_bytes ∧ pos st' = 3%nat.
Proof.
  eexists _, _. split; [reflexivity|].
  destruct (Struct_read_stream struct_AB heap_abc _ five_bytes _ (inr tt) eq_refl)
    as (Hb & _ & Hok).
  split; [exact Hb|]. exact (proj1 (Hok eq_refl)).
Defined.

(** X17: [Struct.read] stops at the first [String] field.  When the
    fields before it have been read, the call [String.read(stream)] lacks
    its [size] argument and raises [TypeError]; the stream is where the
    reads before left it, and the [String] field and the fields after it
    are not read. *)
Theorem Struct_read_String_TypeError (pre post : list loc) (a : loc)
    (h h1 : Heap) (st st1 : Stream) (n : Z) :
  Struct_read (mkStruct pre) (h, st) = (inr tt, (h1, st1)) →
  type (h a) = String_ n →
  Struct_read (mkStruct (pre ++ a :: post)) (h, st) = (inl TypeError, (h1, st1))
  ∧ ∀ b, b ∉ pre → h1 b = h b.
Proof.
  unfold Struct_read. cbn [fields]. intros Hpre Hty.
  destruct (read_loop_frame _ _ _ _ _ _ Hpre) as [Hother Hnt].
  split; [|done].
  rewrite for_each_app, Hpre, for_each_cons. unfold read_field at 1.
  destruct (Hnt a) as [_ ->]. by rewrite Hty.
Qed.

Lemma Struct_read_String_TypeError_hello :
  Struct_read (mkStruct [0%nat]) (heap_hello, five_bytes)
  = (inl TypeError, (heap_hello, five_bytes)).
Proof.
  exact (proj1 (Struct_read_String_TypeError [] [] 0%nat heap_hello _
                  five_bytes _ 5 eq_refl eq_refl)).
Defined.

(** X18: for a [Struct] whose fields are of type [Int8], [Int16] or
    [Int32] and hold integers of the signed range of their type, [write],
    [seek] back to where the write began, and [read] into the fields of a
    [Struct] of the same types (distinct [Field] objects) all return, and
    each field read holds the value of the field written. *)
Theorem Struct_roundtrip_integers (S1 S2 : Struct) (h : Heap) (st : Stream) :
  Forall2 (λ a b, type (h b) = type (h a) ∧ holds_num h a)
          (fields S1) (fields S2) →
  NoDup (fields S2) →
  ∃ st1 h' st',
    Struct_write S1 (h, st) = (inr tt, (h, st1)) ∧
    Struct_read S2 (h, stream_seek (pos st) st1) = (inr tt, (h', st')) ∧
    Forall2 (λ a b, value (h' b) = value (h a)) (fields S1) (fields S2).
Proof. apply Struct_roundtrip_num. Qed.

Lemma Struct_roundtrip_integers_ABab :
  ∃ st1 h' st',
    Struct_write struct_AB (heap_ABab, five_bytes) = (inr tt, (heap_ABab, st1)) ∧
    Struct_read (mkStruct [2; 3]%nat) (heap_ABab, stream_seek 0 st1)
      = (inr tt, (h', st')) ∧
    Forall2 (λ a b, value (h' b) = value (heap_ABab a))
            (fields struct_AB) [2; 3]%nat.
Proof.
  apply (Struct_roundtrip_integers struct_AB (mkStruct [2; 3]%nat) heap_ABab
           five_bytes).
  - repeat constructor.
    + exists Code_b, 1. split_and!; [done..|]. cbn. lia.
    + exists Code_h, 515. split_and!; [done..|]. cbn. lia.
  - cbn. apply NoDup_cons. split.
    + intros [?|[]%elem_of_nil]%elem_of_cons. lia.
    + apply NoDup_singleton.
Defined.

Lemma wire_bytes_num t c v :
  num_code t = Some c → wire_bytes t v = pack LittleEndian c v.
Proof. destruct t; intros [= <-]; done. Qed.

(** A [Struct.read] that returns has taken the stream chunk by chunk. *)
Lemma read_loop_inv fs h st h' st' :
  for_each read_field fs (h, st) = (inr tt, (h', st')) →
  ∃ (cvs : list (list byte * PyVal)) rest,
    Forall2 (λ a cv, Type_read (type (h a)) (alone cv.1) = (inr cv.2, at_end cv.1)
                     ∧ wire_bytes (type (h a)) cv.2 = inr cv.1
                     ∧ cv.1 ≠ [])
            fs cvs
    ∧ remaining st = concat cvs.*1 ++ rest.
Proof.
  revert h st. induction fs as [|a fs IH]; intros h st Hrun.
  { exists [], (remaining st). split; [constructor|done]. }
  rewrite for_each_cons in Hrun.
  destruct (read_field a (h, st)) as [[e|[]] [h1 st1]] eqn:Hstep; [done|].
  destruct (read_field_inv _ _ _ _ _ Hstep)
    as (c & z & Hc & Hr & Hlen & Hun & -> & ->).
  destruct (IH _ _ Hrun) as (cvs & rest & Hall & Hrem).
  set (w := Z.to_nat (calcsize LittleEndian c)) in *.
  assert (0 < calcsize LittleEndian c) as Hw by (by destruct c).
  set (chunk := take w (remaining st)) in *.
  assert (List.length chunk = w) as Hcl by (unfold chunk; rewrite length_take; lia).
  exists ((chunk, VInt z) :: cvs), rest. split.
  - constructor.
    + cbn [fst snd]. split_and!.
      * rewrite (Type_read_num _ _ Hc).
        destruct (num_read_enough c LittleEndian (alone chunk))
          as (z' & Hrd & _ & Hun').
        { unfold remaining, alone. cbn [buf pos]. rewrite drop_0, Hcl. unfold w. lia. }
        unfold remaining, alone in Hun'. cbn [buf pos] in Hun'. rewrite drop_0 in Hun'.
        fold w in Hun'. rewrite take_ge in Hun' by lia.
        rewrite Hun in Hun'. injection Hun' as <-.
        rewrite Hrd. unfold at_end, alone. cbn [buf pos]. fold w.
        by rewrite Hcl.
      * rewrite (wire_bytes_num _ _ _ Hc). by apply pack_unpack.
      * intros Hnil. rewrite Hnil in Hcl. cbn in Hcl. lia.
    + eapply List.Forall2_impl; [|exact Hall]. intros b cv Hb. cbn beta in Hb |- *.
      by destruct (store_value_name_type h a (VInt z) b) as [_ <-].
  - cbn [fmap list_fmap fst concat]. rewrite <- app_assoc, <- Hrem.
    unfold remaining, chunk. cbn [buf pos]. unfold remaining.
    by rewrite <- drop_drop, take_drop.
Qed.

(** X19: when [Struct.read] returns, on a [Struct] of distinct [Field]
    objects, [seek] back to where the read began and [Struct.write] put
    back the very bytes that were read: the write returns, the buffer is
    unchanged and the stream ends where the read ended. *)
Theorem Struct_read_write_back (self : Struct) (h h' : Heap)
    (st st' : Stream) :
  NoDup (fields self) →
  Struct_read self (h, st) = (inr tt, (h', st')) →
  Struct_write self (h', stream_seek (pos st) st') = (inr tt, (h', st'))
  ∧ buf st' = buf st.
Proof.
  unfold Struct_read, Struct_write. intros Hnd Hrun.
  destruct (read_loop_inv _ _ _ _ _ Hrun) as (cvs & rest & Hall & Hrem).
  assert (Forall2 (λ a cv, Type_read (type (h a)) (alone cv.1)
                           = (inr cv.2, at_end cv.1)) (fields self) cvs) as Hrd.
  { eapply List.Forall2_impl; [|exact Hall]. by intros a cv [? _]. }
  rewrite (read_loop_chunks _ _ _ _ _ Hrd Hrem) in Hrun.
  injection Hrun as <- <-. cbn [buf pos]. split; [|done].
  unfold stream_seek. cbn [buf pos].
  replace (mkStream (buf st) (pos st)) with st by (by destruct st).
  rewrite (write_loop_chunks _ _ _ cvs.*1).
  - rewrite stream_write_same; [done|].
    by rewrite Hrem, take_app_length.
  - apply Forall2_fmap_r. apply Forall2_same_length_lookup_2.
    { by eapply Forall2_length. }
    intros j a cv Ha Hcv.
    destruct (Forall2_lookup_lr _ _ _ _ _ _ Hall Ha Hcv) as (_ & Hw & Hne).
    destruct (assign_all_name_type h (zip (fields self) cvs.*2) a) as [_ ->].
    rewrite (assign_all_at h (fields self) cvs.*2 j a cv.2 Ha);
      [|by rewrite list_lookup_fmap, Hcv|by apply NoDup_not_later].
    exists (Z.of_nat (List.length cv.1)).
    rewrite Type_write_wire, Hw.
    destruct cv.1 as [|x l] eqn:Hcv1; [done|].
    unfold at_end, alone. cbn. by rewrite app_nil_r.
Qed.

Lemma Struct_read_write_back_AB :
  ∃ h' st', Struct_read struct_AB (heap_abc, five_bytes) = (inr tt, (h', st'))
            ∧ Struct_write struct_AB (h', stream_seek 0 st') = (inr tt, (h', st')).
Proof.
  eexists _, _. split; [reflexivity|].
  apply (Struct_read_write_back struct_AB heap_abc _ five_bytes _).
  - cbn. apply NoDup_cons. split.
    + intros [?|[]%elem_of_nil]%elem_of_cons. lia.
    + apply NoDup_singleton.
  - reflexivity.
Defined.

(** ** Composing [Struct.set] and [Struct.get] *)

(** A [set] that returns has found the first field of the name, whose
    type accepts the value, and has assigned there. *)
Lemma Struct_set_returns self n v h h' :
  Struct_set self n v h = (inr tt, h') →
  ∃ a, first_named h n (fields self) a
       ∧ Type_verify (type (h a)) v = true
       ∧ h' = <[a := with_value v (h a)]> h.
Proof.
  unfold Struct_set. intros Hset.
  destruct (set_loop_cases (fields self) n v h)
    as [[_ Hres]|(pre & a & post & Hfs & Hpre & Ha & Hres)];
    rewrite Hres in Hset; [done|].
  destruct (Type_verify (type (h a)) v) eqn:Hv; [|done].
  injection Hset as <-. exists a. split_and!; [by exists pre, post|done..].
Qed.

Lemma first_named_store h n fs a b v :
  first_named h n fs a → first_named (<[b := with_value v (h b)]> h) n fs a.
Proof.
  intros (pre & post & -> & Hpre & Ha). exists pre, post. split_and!; [done| |].
  - by apply none_named_store.
  - by destruct (store_value_name_type h b v a) as [-> _].
Qed.

(** X20: of two [set]s of the same name, the last wins: when [set(name,
    v1)] and then [set(name, v2)] return, [set(name, v2)] alone returns
    too, and leaves every field as the two calls leave it. *)
Theorem Struct_set_twice (self : Struct) (h h1 h2 : Heap) (n : string)
    (v1 v2 : PyVal) :
  Struct_set self n v1 h = (inr tt, h1) →
  Struct_set self n v2 h1 = (inr tt, h2) →
  ∃ h2', Struct_set self n v2 h = (inr tt, h2') ∧ same_store h2 h2'.
Proof.
  intros (a & Hfirst & Hv1 & ->)%Struct_set_returns Hset2.
  pose proof (first_named_store h n _ a a v1 Hfirst) as Hfirst1.
  rewrite (Struct_set_at_first _ _ _ v2 a Hfirst1) in Hset2.
  rewrite fn_lookup_insert in Hset2. cbn [type with_value] in Hset2.
  rewrite (Struct_set_at_first _ _ _ v2 a Hfirst).
  destruct (Type_verify (type (h a)) v2); [|done].
  injection Hset2 as <-. eexists. split; [done|].
  intros b. destruct (decide (a = b)) as [->|Hne].
  - by rewrite !fn_lookup_insert.
  - by rewrite !fn_lookup_insert_ne.
Qed.

Lemma Struct_set_twice_age :
  ∃ h2', Struct_set struct_abc "age" (VInt 2) heap_abc = (inr tt, h2')
         ∧ same_store
             (snd (Struct_set struct_abc "age" (VInt 2)
                     (snd (Struct_set struct_abc "age" (VInt 1) heap_abc))))
             h2'.
Proof.
  exact (Struct_set_twice struct_abc heap_abc _ _ "age" (VInt 1) (VInt 2)
           eq_refl eq_refl).
Defined.

(** The result of [get] depends on the names, and on the values of the
    fields of the name asked for. *)
Lemma get_loop_ext fs n (h h' : Heap) :
  (∀ b, b ∈ fs → name (h' b) = name (h b)
                 ∧ (name (h b) = n → value (h' b) = value (h b))) →
  fst (get_loop fs n h') = fst (get_loop fs n h).
Proof.
  induction fs as [|b fs IH]; intros Hsame; [done|].
  cbn [get_loop]. destruct (Hsame b) as [-> Hval]; [by left|].
  destruct (String.eqb_spec (name (h b)) n) as [Hn|_].
  - cbn. by rewrite Hval.
  - apply IH. intros c Hc. apply Hsame. by right.
Qed.

(** X21: a [set] of one name does not change what [get] of another name
    returns, value or [FieldNotFound]. *)
Theorem Struct_set_get_other (self : Struct) (h h' : Heap) (n1 n2 : string)
    (v : PyVal) (r : Exn + unit) :
  n1 ≠ n2 →
  Struct_set self n1 v h = (r, h') →
  fst (Struct_get self n2 h') = fst (Struct_get self n2 h).
Proof.
  intros Hne Hset. unfold Struct_get.
  destruct r as [e|[]].
  - unfold Struct_set in Hset.
    destruct (set_loop_cases (fields self) n1 v h)
      as [[_ Hres]|(pre & a & post & _ & _ & _ & Hres)];
      rewrite Hres in Hset; [by simplify_eq|].
    destruct (Type_verify (type (h a)) v); by simplify_eq.
  - apply Struct_set_returns in Hset as (a & (pre & post & _ & _ & Ha) & _ & ->).
    apply get_loop_ext. intros b _.
    destruct (store_value_name_type h a v b) as [-> _]. split; [done|].
    intros Hb. rewrite fn_lookup_insert_ne; [done|]. intros ->. congruence.
Qed.

Lemma Struct_set_get_other_age :
  fst (Struct_get struct_abc "b"
         (snd (Struct_set struct_abc "age" (VInt 42) heap_abc)))
  = fst (Struct_get struct_abc "b" heap_abc).
Proof.
  apply (Struct_set_get_other struct_abc heap_abc _ "age" "b" (VInt 42) (inr tt)).
  - discriminate.
  - reflexivity.
Defined.

(** X22: [set]s of different names commute: when [set(n1, v1)] and then
    [set(n2, v2)] return, so do the two calls in the other order, and they
    leave every field the same. *)
Theorem Struct_set_commute (self : Struct) (h h1 h12 : Heap)
    (n1 n2 : string) (v1 v2 : PyVal) :
  n1 ≠ n2 →
  Struct_set self n1 v1 h = (inr tt, h1) →
  Struct_set self n2 v2 h1 = (inr tt, h12) →
  ∃ h2 h21, Struct_set self n2 v2 h = (inr tt, h2)
            ∧ Struct_set self n1 v1 h2 = (inr tt, h21)
            ∧ same_store h12 h21.
Proof.
  intros Hne (a1 & Hf1 & Hv1 & ->)%Struct_set_returns
             (a2 & Hf2 & Hv2 & ->)%Struct_set_returns.
  assert (a1 ≠ a2) as Ha.
  { intros ->. destruct Hf1 as (? & ? & _ & _ & Hn1).
    destruct Hf2 as (? & ? & _ & _ & Hn2).
    destruct (store_value_name_type h a2 v1 a2) as [Hnm _]. congruence. }
  assert (first_named h n2 (fields self) a2) as Hf2'.
  { destruct Hf2 as (pre & post & Hfs & Hpre & Hn2). exists pre, post.
    split_and!; [done| |].
    - intros b Hb. destruct (store_value_name_type h a1 v1 b) as [<- _]. auto.
    - by destruct (store_value_name_type h a1 v1 a2) as [<- _]. }
  rewrite fn_lookup_insert_ne in Hv2 |- * by done.
  rewrite (Struct_set_at_first _ _ _ v2 a2 Hf2'), Hv2.
  pose proof (first_named_store h n1 _ a1 a2 v2 Hf1) as Hf1'.
  eexists _, _. split; [done|].
  rewrite (Struct_set_at_first _ _ _ v1 a1 Hf1').
  rewrite fn_lookup_insert_ne by done. rewrite Hv1. split; [done|].
  intros b. destruct (decide (a1 = b)) as [->|Hb1]; destruct (decide (a2 = b))
    as [->|Hb2]; try done;
    repeat first [rewrite fn_lookup_insert | rewrite fn_lookup_insert_ne by done];
    done.
Qed.

Lemma Struct_set_commute_a_age :
  ∃ h2 h21, Struct_set struct_abc "age" (VInt 42) heap_abc = (inr tt, h2)
            ∧ Struct_set struct_abc "a" (VInt 1) h2 = (inr tt, h21)
            ∧ same_store
                (snd (Struct_set struct_abc "age" (VInt 42)
                        (snd (Struct_set struct_abc "a" (VInt 1) heap_abc))))
                h21.
Proof.
  apply (Struct_set_commute struct_abc heap_abc
           (snd (Struct_set struct_abc "a" (VInt 1) heap_abc))
           (snd (Struct_set struct_abc "age" (VInt 42)
                   (snd (Struct_set struct_abc "a" (VInt 1) heap_abc))))
           "a" "age" (VInt 1) (VInt 42)).
  - discriminate.
  - reflexivity.
  - reflexivity.
Defined.

(** X23: [set] keeps the fields valid: after a [set] that returns, the
    field it assigned holds a value its type's [verify] accepts, and every
    field that held such a value before still does.  [set] never stores a
    value that [verify] rejects. *)
Theorem Struct_set_keeps_verified (self : Struct) (h h' : Heap) (n : string)
    (v : PyVal) :
  Struct_set self n v h = (inr tt, h') →
  (∃ a, first_named h n (fields self) a ∧ value (h' a) = v
        ∧ Type_verify (type (h' a)) (value (h' a)) = true)
  ∧ ∀ b, Type_verify (type (h b)) (value (h b)) = true →
         Type_verify (type (h' b)) (value (h' b)) = true.
Proof.
  intros (a & Hfirst & Hv & ->)%Struct_set_returns. split.
  - exists a. by rewrite fn_lookup_insert.
  - intros b Hb. destruct (decide (a = b)) as [->|Hne].
    + by rewrite fn_lookup_insert.
    + by rewrite fn_lookup_insert_ne.
Qed.

Lemma Struct_set_keeps_verified_age :
  let h' := snd (Struct_set struct_abc "age" (VInt 42) heap_abc) in
  (∃ a, first_named heap_abc "age" (fields struct_abc) a ∧ value (h' a) = VInt 42
        ∧ Type_verify (type (h' a)) (value (h' a)) = true)
  ∧ ∀ b, Type_verify (type (heap_abc b)) (value (heap_abc b)) = true →
         Type_verify (type (h' b)) (value (h' b)) = true.
Proof.
  exact (Struct_set_keeps_verified struct_abc heap_abc
           (snd (Struct_set struct_abc "age" (VInt 42) heap_abc))
           "age" (VInt 42) eq_refl).
Defined.

(** ** [String] fields in a [Struct] *)



(** X25: [String.verify] accepts a value exactly when it is a [str]:
    [set] on a [String] field of anything else, an [int] or [bytes]
    included, raises [FieldValidationError] and assigns nothing. *)
Theorem Struct_set_String_text_only (self : Struct) (h : Heap) (n : string)
    (a : loc) (len : Z) (v : PyVal) :
  first_named h n (fields self) a →
  type (h a) = String_ len →
  (String_verify v = true ↔ ∃ s, v = VStr s)
  ∧ (type_of v ≠ T_str →
     Struct_set self n v h
     = (inl (FieldValidationError n C_String (type_of v)), h)).
Proof.
  intros Hfirst Hty. split.
  - split; [|by intros [s ->]]. destruct v; try done. eauto.
  - intros Hv. rewrite (Struct_set_at_first self h n v a Hfirst), Hty.
    by destruct v.
Qed.

Lemma Struct_set_String_text_only_bytes :
  Struct_set (mkStruct [0%nat]) "s" (VBytes ["h"; "i"]%byte) heap_hello
  = (inl (FieldValidationError "s" C_String T_bytes), heap_hello).
Proof.
  apply (Struct_set_String_text_only (mkStruct [0%nat]) heap_hello "s" 0%nat 5
           (VBytes ["h"; "i"]%byte)).
  - exists [], []. split_and!; [done| |done]. apply none_named_nil.
  - reflexivity.
  - discriminate.
Defined.

